(** * The Hedy level-3 highlighting grammar: tokens, keywords and command shapes

    The program under study is a Lezer grammar.  Its [@tokens] block is a
    set of regular token rules over Unicode code points, its two
    [@external] declarations reclassify [Text] tokens as role keywords, and
    its rules assemble one [Command] per line.  The grammar is embedded
    rule by rule: token rules become functions on lists of code points,
    grammar rules become list-of-successes parsers that build trees whose
    shape follows the rule they come from. *)

From Stdlib Require Import Strings.String Strings.Ascii.
From Stdlib Require Import List NArith ZArith Bool Lia Arith PeanoNat.
From Stdlib Require Import Permutation FinFun.
Import ListNotations.

Set Implicit Arguments.

(** ** Code points *)

(** A source text is a list of Unicode code points. *)
Definition CodePoint := N.
Definition Lexeme := list N.

(** Code points of an ASCII literal, used to write inputs and character sets
    the way the grammar writes them. *)
Fixpoint cps (s : String.string) : Lexeme :=
  match s with
  | String.EmptyString => []
  | String.String a r => Ascii.N_of_ascii a :: cps r
  end.
Arguments cps s%_string_scope.

Definition lexeme_eq_dec : forall a b : Lexeme, {a = b} + {a <> b} :=
  list_eq_dec N.eq_dec.

(** ** The [@tokens] block *)

Module Tokens.

Local Open Scope N_scope.

Definition in_range (lo hi c : N) : bool := (lo <=? c) && (c <=? hi).

(** [symbol { $[!%&()*+\-./:;<>=?@\[\]\\\^\{\}`~$_] }] *)
Definition symbol (c : N) : bool :=
  existsb (N.eqb c) (cps "!%&()*+-./:;<>=?@[]\^{}`~$_").

(** [@asciiLetter] and [@digit], the built-in character classes. *)
Definition asciiLetter (c : N) : bool :=
  in_range 65 90 c || in_range 97 122 c.

Definition digit (c : N) : bool := in_range 48 57 c.

(** [identifierChar]: the ASCII letters and four code point ranges that
    leave out U+060C, U+3001 and U+FF0C. *)
Definition identifierChar (c : N) : bool :=
  asciiLetter c
  || in_range 0x0000a1 0x00060b c
  || in_range 0x00060d 0x003000 c
  || in_range 0x003002 0x00ff0b c
  || in_range 0x00ff0d 0x10ffff c.

(** [Text { (identifierChar | symbol | @digit)+ }]: the characters of a run. *)
Definition textChar (c : N) : bool :=
  identifierChar c || symbol c || digit c.

Definition hash : N := 35.
Definition lf : N := 10.
Definition blank : N := 32.
Definition backslash : N := 92.
Definition dquote : N := 34.
Definition squote : N := 39.

(** The four literal separators of [AssignList]:
    [','], U+060C, U+FF0C and U+3001. *)
Inductive Comma := AsciiComma | ArabicComma | FullwidthComma | IdeographicComma.

Definition comma_code (k : Comma) : N :=
  match k with
  | AsciiComma => 0x2c
  | ArabicComma => 0x60c
  | FullwidthComma => 0xff0c
  | IdeographicComma => 0x3001
  end.

Definition all_commas : list Comma :=
  [AsciiComma; ArabicComma; FullwidthComma; IdeographicComma].

Definition comma_of (c : N) : option Comma :=
  find (fun k => comma_code k =? c) all_commas.

Definition is_quote (c : N) : bool := (c =? dquote) || (c =? squote).

(** What may stand between two quotes [q]: any character but a backslash, a
    line feed and [q] itself (the inverted sets of the two [String] forms). *)
Definition stringChar (q c : N) : bool :=
  negb ((c =? backslash) || (c =? lf) || (c =? q)).

(** What may follow the hash of a [Comment]: anything but a line feed. *)
Definition commentChar (c : N) : bool := negb (c =? lf).

(** The token types of the grammar.  [symbol] and [identifierChar] are
    lower-case helper rules used inside [Text] only: they name no token. *)
Inductive TokenKind :=
| Text
| String
| Comment
| newline
| space
| Op (k : Comma).

(** Longest prefix of [l] whose elements satisfy [p], and what is left. *)
Fixpoint span (p : N -> bool) (l : list N) : list N * list N :=
  match l with
  | [] => ([], [])
  | c :: r =>
      if p c then let (run, rest) := span p r in (c :: run, rest)
      else ([], l)
  end.

(** The token that starts at the head of [input]: its kind, its lexeme and
    the rest of the input.  The rules start with different characters, so
    at most one applies and it is taken at its longest; [None] when no rule
    of the block matches here. *)
Definition next_token (input : list N) : option (TokenKind * Lexeme * list N) :=
  match input with
  | [] => None
  | c :: rest =>
      if c =? hash then
        let (body, rest') := span commentChar rest in
        Some (Comment, c :: body, rest')
      else if c =? lf then Some (newline, [c], rest)
      else if c =? blank then Some (space, [c], rest)
      else if textChar c then
        let (run, rest') := span textChar rest in
        Some (Text, c :: run, rest')
      else if is_quote c then
        let (body, rest') := span (stringChar c) rest in
        match rest' with
        | q :: rest'' =>
            if q =? c then Some (String, c :: body ++ [q], rest'') else None
        | [] => None
        end
      else
        match comma_of c with
        | Some k => Some (Op k, [c], rest)
        | None => None
        end
  end.

End Tokens.
Export Tokens.

(** ** Tokens and the lexer *)

(** A token: its kind, the offsets of its span and the slice it covers. *)
Record Token := mkToken {
  tk_kind : TokenKind;
  tk_start : nat;
  tk_end : nat;
  tk_text : Lexeme
}.

(** Outcome of lexing: the tokens, or the offset at which no token rule
    matches.  [LexFuel] is the outcome of a run that stops because its step
    budget is used up; [lex] never produces it (see [lex_never_out_of_fuel]). *)
Inductive LexResult :=
| LexOk (ts : list Token)
| LexStuck (pos : nat)
| LexFuel.

Definition lex_cons (t : Token) (r : LexResult) : LexResult :=
  match r with
  | LexOk ts => LexOk (t :: ts)
  | other => other
  end.

Fixpoint lex_from (fuel pos : nat) (input : list N) : LexResult :=
  match input with
  | [] => LexOk []
  | _ :: _ =>
      match fuel with
      | O => LexFuel
      | S fuel' =>
          match next_token input with
          | None => LexStuck pos
          | Some (k, w, rest) =>
              let stop := pos + length w in
              lex_cons (mkToken k pos stop w) (lex_from fuel' stop rest)
          end
      end
  end.

Definition lex (input : list N) : LexResult :=
  lex_from (length input) 0 input.


(** Offsets count code points.  [@skip { space | Comment }]: these tokens may
    stand anywhere between the tokens of a rule and belong to no node. *)
Definition skipped (t : Token) : bool :=
  match tk_kind t with
  | space | Comment => true
  | _ => false
  end.

Definition is_newline (t : Token) : bool :=
  match tk_kind t with
  | newline => true
  | _ => false
  end.

(** The token runs between newlines, in order; empty runs included. *)
Fixpoint lines_of (ts : list Token) : list (list Token) :=
  match ts with
  | [] => [[]]
  | t :: r =>
      if is_newline t then [] :: lines_of r
      else match lines_of r with
           | [] => [[t]]
           | l :: ls => (t :: l) :: ls
           end
  end.

Definition nonempty {A} (l : list A) : bool :=
  match l with
  | [] => false
  | _ :: _ => true
  end.

(** [Program { newline* (Command newline+)* Command? }]: the statements of a
    program are the non-empty runs of unskipped tokens between newlines. *)
Definition statements (ts : list Token) : list (list Token) :=
  filter nonempty (lines_of (filter (fun t => negb (skipped t)) ts)).

(** ** Role keywords *)

(** The tokens that [specializeKeyword] may put in place of a [Text]. *)
Inductive Specialized := ask | at_ | random.

(** The tokens that [extendKeyword] may add to a [Text]. *)
Inductive Extended :=
| print | forward | turn | color | sleep | play
| is_ | add | from | remove | to_list | clear.

Inductive Keyword :=
| Sp (k : Specialized)
| Ex (k : Extended).
Coercion Sp : Specialized >-> Keyword.
Coercion Ex : Extended >-> Keyword.

Definition Specialized_eqb (a b : Specialized) : bool :=
  match a, b with
  | ask, ask | at_, at_ | random, random => true
  | _, _ => false
  end.

Definition Extended_eqb (a b : Extended) : bool :=
  match a, b with
  | print, print | forward, forward | turn, turn | color, color
  | sleep, sleep | play, play | is_, is_ | add, add | from, from
  | remove, remove | to_list, to_list | clear, clear => true
  | _, _ => false
  end.

Definition Keyword_eqb (a b : Keyword) : bool :=
  match a, b with
  | Sp x, Sp y => Specialized_eqb x y
  | Ex x, Ex y => Extended_eqb x y
  | _, _ => false
  end.

(** The two external functions of the grammar, imported from [./tokens].
    They look a [Text] up in the keyword table of the active locale. *)
Record Locale := mkLocale {
  specializeKeyword : Lexeme -> option Specialized;
  extendKeyword : Lexeme -> option Extended
}.

(** What a [Text] token may be read as. *)
Inductive Reading :=
| AsText
| AsKeyword (k : Keyword).

(** [@external specialize] replaces the token, [@external extend] keeps the
    [Text] reading beside the keyword; the specializers are tried in the
    order in which the grammar declares them and the first answer is kept. *)
Definition readings (L : Locale) (w : Lexeme) : list Reading :=
  match specializeKeyword L w with
  | Some k => [AsKeyword k]
  | None =>
      match extendKeyword L w with
      | Some k => [AsText; AsKeyword k]
      | None => [AsText]
      end
  end.

Definition Reading_eqb (a b : Reading) : bool :=
  match a, b with
  | AsText, AsText => true
  | AsKeyword x, AsKeyword y => Keyword_eqb x y
  | _, _ => false
  end.

Definition reads_as (L : Locale) (r : Reading) (w : Lexeme) : bool :=
  existsb (Reading_eqb r) (readings L w).

Definition kind_is_text (t : Token) : bool :=
  match tk_kind t with Text => true | _ => false end.

Definition is_string (t : Token) : bool :=
  match tk_kind t with String => true | _ => false end.

Definition is_op (t : Token) : bool :=
  match tk_kind t with Op _ => true | _ => false end.

(** A token that the parser may take as the terminal [Text]. *)
Definition is_text (L : Locale) (t : Token) : bool :=
  kind_is_text t && reads_as L AsText (tk_text t).

(** A token that the parser may take as the keyword [k]. *)
Definition is_kw (L : Locale) (k : Keyword) (t : Token) : bool :=
  kind_is_text t && reads_as L (AsKeyword k) (tk_text t).

(** ** Parse trees *)

(** Every node keeps the tokens it is made of, so that its span can be read
    back.  A keyword position of a rule holds the run of keyword tokens that
    the rule takes there. *)

(** [(random+ | Text)], the index of a [ListAccess]. *)
Inductive Index :=
| Random (rs : list Token)
| IndexText (t : Token).

(** [ListAccess { Text at+ (random+ | Text) }] *)
Record ListAccess := mkListAccess {
  la_list : Token;
  la_at : list Token;
  la_index : Index
}.

(** [( String | Text | ListAccess )], an argument of [Print] and [Ask]. *)
Inductive Arg :=
| ArgString (t : Token)
| ArgText (t : Token)
| ArgListAccess (l : ListAccess).

(** [(Text | ListAccess)], the operand of [Sleep] and of the turtle commands. *)
Inductive Operand :=
| OperandText (t : Token)
| OperandListAccess (l : ListAccess).

(** [(Text+ | ListAccess)], the right-hand side of [Assign] and the notes of
    [Play]. *)
Inductive Value :=
| ValueTexts (ts : list Token)
| ValueListAccess (l : ListAccess).

(** [Turtle[@isGroup=turtle] { Forward {...} | Turn {...} | Color {...} }] *)
Inductive TurtleCommand :=
| Forward (kws : list Token) (v : Operand)
| Turn (kws : list Token) (v : Operand)
| Color (kws : list Token) (v : Operand).

Inductive Command :=
| Assign (name : Token) (iss : list Token) (v : Value)
| AssignList (name : Token) (iss : list Token)
             (first : list Token) (more : list (Token * list Token))
| Ask (name : Token) (iss asks : list Token) (args : list Arg)
| Clear (kws : list Token)
| Print (kws : list Token) (args : list Arg)
| Play (kws : list Token) (v : Value)
| Turtle (t : TurtleCommand)
| Sleep (kws : list Token) (d : option Operand)
| Add (kws : list Token) (vals : list Token) (tos : list Token) (target : Token)
| Remove (kws : list Token) (vals : list Token) (froms : list Token) (target : Token)
| ErrorInvalid (ts : list Token).

(** The node names, as a consumer sees them. *)
Inductive Tag :=
| TAssign | TAssignList | TAsk | TClear | TPrint | TPlay
| TForward | TTurn | TColor | TSleep | TAdd | TRemove | TErrorInvalid.

Definition tag (c : Command) : Tag :=
  match c with
  | Assign _ _ _ => TAssign
  | AssignList _ _ _ _ => TAssignList
  | Ask _ _ _ _ => TAsk
  | Clear _ => TClear
  | Print _ _ => TPrint
  | Play _ _ => TPlay
  | Turtle (Forward _ _) => TForward
  | Turtle (Turn _ _) => TTurn
  | Turtle (Color _ _) => TColor
  | Sleep _ _ => TSleep
  | Add _ _ _ _ => TAdd
  | Remove _ _ _ _ => TRemove
  | ErrorInvalid _ => TErrorInvalid
  end.

(** The named command shapes: every alternative of [Command] but the
    fallback. *)
Definition named (c : Command) : bool :=
  match c with
  | ErrorInvalid _ => false
  | _ => true
  end.

(** [ErrorInvalid[@dynamicPrecedence=-10]]; the other rules carry none. *)
Definition dynamicPrecedence (c : Command) : Z :=
  match c with
  | ErrorInvalid _ => (-10)%Z
  | _ => 0%Z
  end.

(** *** The tokens of a tree, left to right *)

Definition index_tokens (i : Index) : list Token :=
  match i with
  | Random rs => rs
  | IndexText t => [t]
  end.

Definition access_tokens (l : ListAccess) : list Token :=
  la_list l :: la_at l ++ index_tokens (la_index l).

Definition arg_tokens (a : Arg) : list Token :=
  match a with
  | ArgString t => [t]
  | ArgText t => [t]
  | ArgListAccess l => access_tokens l
  end.

Definition operand_tokens (v : Operand) : list Token :=
  match v with
  | OperandText t => [t]
  | OperandListAccess l => access_tokens l
  end.

Definition value_tokens (v : Value) : list Token :=
  match v with
  | ValueTexts ts => ts
  | ValueListAccess l => access_tokens l
  end.

Definition item_tokens (it : Token * list Token) : list Token :=
  fst it :: snd it.

Definition turtle_tokens (t : TurtleCommand) : list Token :=
  match t with
  | Forward kws v | Turn kws v | Color kws v => kws ++ operand_tokens v
  end.

Definition command_tokens (c : Command) : list Token :=
  match c with
  | Assign name iss v => name :: iss ++ value_tokens v
  | AssignList name iss first more =>
      name :: iss ++ first ++ concat (map item_tokens more)
  | Ask name iss asks args =>
      name :: iss ++ asks ++ concat (map arg_tokens args)
  | Clear kws => kws
  | Print kws args => kws ++ concat (map arg_tokens args)
  | Play kws v => kws ++ value_tokens v
  | Turtle t => turtle_tokens t
  | Sleep kws d =>
      kws ++ match d with Some v => operand_tokens v | None => [] end
  | Add kws vals tos target => kws ++ vals ++ tos ++ [target]
  | Remove kws vals froms target => kws ++ vals ++ froms ++ [target]
  | ErrorInvalid ts => ts
  end.

(** ** List-of-successes parsers *)

(** A parser returns every way of reading a prefix of the tokens, with what
    is left; this is how the ambiguity of [@external extend] (a token is a
    [Text] and a keyword at once) is kept until the precedences choose. *)
Definition Parser (A : Type) := list Token -> list (A * list Token).

Definition satisfy (f : Token -> bool) : Parser Token :=
  fun ts =>
    match ts with
    | t :: r => if f t then [(t, r)] else []
    | [] => []
    end.

Definition pmap {A B} (g : A -> B) (p : Parser A) : Parser B :=
  fun ts => map (fun ar => (g (fst ar), snd ar)) (p ts).

Definition seq {A B} (p : Parser A) (q : Parser B) : Parser (A * B) :=
  fun ts =>
    flat_map (fun ar => map (fun br => ((fst ar, fst br), snd br)) (q (snd ar)))
             (p ts).

Definition alt {A} (p q : Parser A) : Parser A :=
  fun ts => p ts ++ q ts.

Definition opt {A} (p : Parser A) : Parser (option A) :=
  fun ts => pmap Some p ts ++ [(None, ts)].

(** [p+] with a step budget: each round takes one more [p]. *)
Fixpoint many1 {A} (fuel : nat) (p : Parser A) (ts : list Token)
  : list (list A * list Token) :=
  match fuel with
  | O => []
  | S n =>
      flat_map (fun ar =>
                  ([fst ar], snd ar)
                  :: map (fun lr => (fst ar :: fst lr, snd lr))
                         (many1 n p (snd ar)))
               (p ts)
  end.

(** [p+]: every [p] of the grammar takes at least one token, so as many
    rounds as there are tokens is enough (see [plus_spec]). *)
Definition plus {A} (p : Parser A) : Parser (list A) :=
  fun ts => many1 (length ts) p ts.

Declare Scope parser_scope.
Delimit Scope parser_scope with parser.
Notation "g <$> p" := (pmap g p) (at level 61, left associativity) : parser_scope.
Notation "p <*> q" := (seq p q) (at level 61, left associativity) : parser_scope.
Notation "p <|> q" := (alt p q) (at level 62, left associativity) : parser_scope.

(** ** The grammar rules *)

Section Grammar.

Variable L : Locale.

Local Open Scope parser_scope.

(** *** Derivations *)

(** A tree is a derivation of its tokens when every slot holds what its
    rule asks for: a run is not empty, a keyword token reads as the keyword
    of its slot, and a [Text] token reads as [Text]. *)
Definition run (f : Token -> bool) (l : list Token) : bool :=
  nonempty l && forallb f l.

Definition wf_index (i : Index) : bool :=
  match i with
  | Random rs => run (is_kw L random) rs
  | IndexText t => is_text L t
  end.

Definition wf_access (l : ListAccess) : bool :=
  is_text L (la_list l) && run (is_kw L at_) (la_at l) && wf_index (la_index l).

Definition wf_arg (a : Arg) : bool :=
  match a with
  | ArgString t => is_string t
  | ArgText t => is_text L t
  | ArgListAccess l => wf_access l
  end.

Definition wf_operand (v : Operand) : bool :=
  match v with
  | OperandText t => is_text L t
  | OperandListAccess l => wf_access l
  end.

Definition wf_value (v : Value) : bool :=
  match v with
  | ValueTexts ts => run (is_text L) ts
  | ValueListAccess l => wf_access l
  end.

Definition wf_item (it : Token * list Token) : bool :=
  is_op (fst it) && run (is_text L) (snd it).

Definition wf_turtle (t : TurtleCommand) : bool :=
  match t with
  | Forward kws v => run (is_kw L forward) kws && wf_operand v
  | Turn kws v => run (is_kw L turn) kws && wf_operand v
  | Color kws v => run (is_kw L color) kws && wf_operand v
  end.

Definition wf_command (c : Command) : bool :=
  match c with
  | Assign name iss v =>
      is_text L name && run (is_kw L is_) iss && wf_value v
  | AssignList name iss first more =>
      is_text L name && run (is_kw L is_) iss && run (is_text L) first
      && (nonempty more && forallb wf_item more)
  | Ask name iss asks args =>
      is_text L name && run (is_kw L is_) iss && run (is_kw L ask) asks
      && (nonempty args && forallb wf_arg args)
  | Clear kws => run (is_kw L clear) kws
  | Print kws args =>
      run (is_kw L print) kws && (nonempty args && forallb wf_arg args)
  | Play kws v => run (is_kw L play) kws && wf_value v
  | Turtle t => wf_turtle t
  | Sleep kws d =>
      run (is_kw L sleep) kws
      && match d with Some v => wf_operand v | None => true end
  | Add kws vals tos target =>
      run (is_kw L add) kws && run (is_text L) vals
      && run (is_kw L to_list) tos && is_text L target
  | Remove kws vals froms target =>
      run (is_kw L remove) kws && run (is_text L) vals
      && run (is_kw L from) froms && is_text L target
  | ErrorInvalid ts => run (is_text L) ts
  end.

(** [Derives c ts]: the rules of the grammar derive the tree [c] from the
    statement [ts]. *)
Definition Derives (c : Command) (ts : list Token) : Prop :=
  wf_command c = true /\ command_tokens c = ts.

(** *** Terminals *)

Definition text : Parser Token := satisfy (is_text L).
Definition kw (k : Keyword) : Parser Token := satisfy (is_kw L k).
Definition string_lit : Parser Token := satisfy is_string.
Definition op : Parser Token := satisfy is_op.

(** *** Rules *)

Definition index : Parser Index :=
  Random <$> plus (kw random) <|> IndexText <$> text.

(** [ListAccess { Text at+ (random+ | Text) }] *)
Definition listAccess : Parser ListAccess :=
  (fun x => mkListAccess (fst (fst x)) (snd (fst x)) (snd x))
    <$> (text <*> plus (kw at_) <*> index).

Definition arg : Parser Arg :=
  ArgString <$> string_lit <|> ArgText <$> text <|> ArgListAccess <$> listAccess.

Definition operand : Parser Operand :=
  OperandText <$> text <|> OperandListAccess <$> listAccess.

(** [Print { print+ ( String | Text | ListAccess )+ }] *)
Definition printRule : Parser Command :=
  (fun x => Print (fst x) (snd x)) <$> (plus (kw print) <*> plus arg).

(** [Ask { Text is+ ask+ ( String | Text | ListAccess )+ }] *)
Definition askRule : Parser Command :=
  (fun x => Ask (fst (fst (fst x))) (snd (fst (fst x))) (snd (fst x)) (snd x))
    <$> (text <*> plus (kw is_) <*> plus (kw ask) <*> plus arg).

(** [AssignList { Text is+ Text+ (Op<...> Text+)+ }] *)
Definition assignListRule : Parser Command :=
  (fun x => AssignList (fst (fst (fst x))) (snd (fst (fst x))) (snd (fst x)) (snd x))
    <$> (text <*> plus (kw is_) <*> plus text <*> plus (op <*> plus text)).

(** [Assign { Text is+ (Text+ | ListAccess) }] *)
Definition assignRule : Parser Command :=
  (fun x => Assign (fst (fst x)) (snd (fst x)) (snd x))
    <$> (text <*> plus (kw is_)
         <*> (ValueTexts <$> plus text <|> ValueListAccess <$> listAccess)).

(** [Sleep { sleep+ (Text | ListAccess)? }] *)
Definition sleepRule : Parser Command :=
  (fun x => Sleep (fst x) (snd x)) <$> (plus (kw sleep) <*> opt operand).

(** [Add { add+ Text+ to_list+ Text }] *)
Definition addRule : Parser Command :=
  (fun x => Add (fst (fst (fst x))) (snd (fst (fst x))) (snd (fst x)) (snd x))
    <$> (plus (kw add) <*> plus text <*> plus (kw to_list) <*> text).

(** [Remove { remove+ Text+ from+ Text }] *)
Definition removeRule : Parser Command :=
  (fun x => Remove (fst (fst (fst x))) (snd (fst (fst x))) (snd (fst x)) (snd x))
    <$> (plus (kw remove) <*> plus text <*> plus (kw from) <*> text).

(** [Clear { clear+ }] *)
Definition clearRule : Parser Command :=
  Clear <$> plus (kw clear).

(** [Play { play+ (ListAccess | Text+) }] *)
Definition playRule : Parser Command :=
  (fun x => Play (fst x) (snd x))
    <$> (plus (kw play)
         <*> (ValueListAccess <$> listAccess <|> ValueTexts <$> plus text)).

(** [Turtle]: [Forward { forward+ (Text | ListAccess) }], [Turn], [Color]. *)
Definition turtleRule : Parser Command :=
  Turtle <$>
    ((fun x => Forward (fst x) (snd x)) <$> (plus (kw forward) <*> operand)
     <|> (fun x => Turn (fst x) (snd x)) <$> (plus (kw turn) <*> operand)
     <|> (fun x => Color (fst x) (snd x)) <$> (plus (kw color) <*> operand)).

(** [ErrorInvalid[@dynamicPrecedence=-10] { Text+ }] *)
Definition errorInvalidRule : Parser Command :=
  ErrorInvalid <$> plus text.

(** [Command { Assign | AssignList | Ask | Clear | Print | Play | Turtle
    | Sleep | Add | Remove | ErrorInvalid }] *)
Definition command : Parser Command :=
  assignRule <|> assignListRule <|> askRule <|> clearRule <|> printRule
  <|> playRule <|> turtleRule <|> sleepRule <|> addRule <|> removeRule
  <|> errorInvalidRule.

(** Every [Command] that the rules derive from the whole statement. *)
Definition all_parses (ts : list Token) : list Command :=
  map fst (filter (fun cr => negb (nonempty (snd cr))) (command ts)).

(** The derivation kept among several: one of the highest dynamic
    precedence, the first of them in the order of the alternatives. *)
Fixpoint select (cs : list Command) : option Command :=
  match cs with
  | [] => None
  | c :: r =>
      match select r with
      | None => Some c
      | Some d =>
          if (dynamicPrecedence d <=? dynamicPrecedence c)%Z then Some c
          else Some d
      end
  end.

(** The [Command] of one statement; [None] when the rules derive no
    [Command] from its tokens. *)
Definition parse_statement (ts : list Token) : option Command :=
  select (all_parses ts).

(** The commands of a source text, statement by statement. *)
Definition parse_program (input : list N) : option (list (option Command)) :=
  match lex input with
  | LexOk ts => Some (map parse_statement (statements ts))
  | _ => None
  end.

End Grammar.

(** ** A keyword table *)

Definition lexeme_eqb (a b : Lexeme) : bool :=
  if lexeme_eq_dec a b then true else false.

Definition lookup {A} (table : list (Lexeme * A)) (w : Lexeme) : option A :=
  option_map snd (find (fun e => lexeme_eqb (fst e) w) table).

(** Modelled from the spec: the keyword functions of [./tokens] and the
    locale tables they read are not part of the sources.  This table gives
    every role the spelling of its name in the grammar, which is how the
    examples of the specification spell the keywords. *)
Definition en : Locale :=
  mkLocale
    (lookup [(cps "ask", ask); (cps "at", at_); (cps "random", random)])
    (lookup [(cps "print", print); (cps "forward", forward);
             (cps "turn", turn); (cps "color", color);
             (cps "sleep", sleep); (cps "play", play); (cps "is", is_);
             (cps "add", add); (cps "from", from); (cps "remove", remove);
             (cps "to_list", to_list); (cps "clear", clear)]).

(** ** Statements about parsers *)

(** [Recognises D p toks wf]: the results of [p] are exactly the trees of
    the class [D] that are well formed, each with the input left after its
    tokens. *)
Definition Recognises {A} (D : A -> Prop) (p : Parser A)
           (toks : A -> list Token) (wf : A -> bool) : Prop :=
  forall ts a r, In (a, r) (p ts) <-> D a /\ wf a = true /\ ts = toks a ++ r.

Definition Anything {A} (a : A) : Prop := True.

(** The class of trees that a rule builds. *)
Definition built_by (tags : list Tag) (c : Command) : Prop := In (tag c) tags.


(** ** Statements about tokens *)

(** What the lexeme of a token of each kind looks like. *)
Definition token_shape (k : TokenKind) (w : Lexeme) : Prop :=
  match k with
  | Text => w <> [] /\ forallb textChar w = true
  | String =>
      exists q body,
        is_quote q = true /\ w = q :: body ++ [q]
        /\ forallb (stringChar q) body = true
  | Comment => exists body, w = hash :: body /\ forallb commentChar body = true
  | newline => w = [lf]
  | space => w = [blank]
  | Op k => w = [comma_code k]
  end.

(** The spans of [ts] follow one another from offset [pos] to offset [stop]
    and each token holds the slice of its span. *)
Fixpoint chained (pos stop : nat) (ts : list Token) : Prop :=
  match ts with
  | [] => pos = stop
  | t :: r =>
      tk_start t = pos /\ tk_end t = pos + length (tk_text t)
      /\ tk_start t < tk_end t /\ chained (tk_end t) stop r
  end.

(** No [Text] token is followed at once by another [Text] token. *)
Fixpoint text_maximal (ts : list Token) : Prop :=
  match ts with
  | t :: (u :: _) as r =>
      ~ (tk_kind t = Text /\ tk_kind u = Text) /\ text_maximal r
  | _ => True
  end.


(** ** Statements about trees *)

(** The elements of a list literal. *)
Definition list_elements (c : Command) : list (list Token) :=
  match c with
  | AssignList _ _ first more => first :: map snd more
  | _ => []
  end.

(** The arguments of a [Print] or an [Ask]. *)
Definition arguments (c : Command) : list Arg :=
  match c with
  | Print _ args | Ask _ _ _ args => args
  | _ => []
  end.

(** The rules that start with a variable name. *)
Definition text_headed (c : Command) : bool :=
  match c with
  | Assign _ _ _ | AssignList _ _ _ _ | Ask _ _ _ _ => true
  | _ => false
  end.

(** A change of the keyword runs of a tree: [g k l] is put in place of the
    run [l] of the keyword [k], at every keyword position. *)
Definition RunMap := Keyword -> list Token -> list Token.








(** [g] puts a run of the same keyword in place of every run. *)
Definition keeps_runs (L : Locale) (g : RunMap) : Prop :=
  forall k l, run (is_kw L k) l = true -> run (is_kw L k) (g k l) = true.

(** The run map that says every keyword token [n] more times. *)
Definition stutter (n : nat) : RunMap :=
  fun _ l => flat_map (fun t => repeat t (S n)) l.

(** The tag of the rule that starts with the keyword [k]. *)
Definition head_tag (k : Keyword) : Tag :=
  match k with
  | Ex clear => TClear
  | Ex print => TPrint
  | Ex play => TPlay
  | Ex forward => TForward
  | Ex turn => TTurn
  | Ex color => TColor
  | Ex sleep => TSleep
  | Ex add => TAdd
  | Ex remove => TRemove
  | _ => TErrorInvalid
  end.

(** A token that is neither a separator nor an [ask] keyword. *)
Definition quiet (L : Locale) (t : Token) : bool :=
  negb (is_op t) && negb (is_kw L ask t).

(** ** Statements about relocated and respelled tokens *)

(** A tree with every token replaced by its image under [f]. *)
Definition index_map (f : Token -> Token) (i : Index) : Index :=
  match i with
  | Random rs => Random (map f rs)
  | IndexText t => IndexText (f t)
  end.

Definition access_map (f : Token -> Token) (l : ListAccess) : ListAccess :=
  mkListAccess (f (la_list l)) (map f (la_at l)) (index_map f (la_index l)).

Definition arg_map (f : Token -> Token) (a : Arg) : Arg :=
  match a with
  | ArgString t => ArgString (f t)
  | ArgText t => ArgText (f t)
  | ArgListAccess l => ArgListAccess (access_map f l)
  end.

Definition operand_map (f : Token -> Token) (v : Operand) : Operand :=
  match v with
  | OperandText t => OperandText (f t)
  | OperandListAccess l => OperandListAccess (access_map f l)
  end.

Definition value_map (f : Token -> Token) (v : Value) : Value :=
  match v with
  | ValueTexts ts => ValueTexts (map f ts)
  | ValueListAccess l => ValueListAccess (access_map f l)
  end.

Definition item_map (f : Token -> Token) (it : Token * list Token)
  : Token * list Token :=
  (f (fst it), map f (snd it)).

Definition turtle_map (f : Token -> Token) (t : TurtleCommand) : TurtleCommand :=
  match t with
  | Forward kws v => Forward (map f kws) (operand_map f v)
  | Turn kws v => Turn (map f kws) (operand_map f v)
  | Color kws v => Color (map f kws) (operand_map f v)
  end.

Definition command_map (f : Token -> Token) (c : Command) : Command :=
  match c with
  | Assign name iss v => Assign (f name) (map f iss) (value_map f v)
  | AssignList name iss first more =>
      AssignList (f name) (map f iss) (map f first) (map (item_map f) more)
  | Ask name iss asks args =>
      Ask (f name) (map f iss) (map f asks) (map (arg_map f) args)
  | Clear kws => Clear (map f kws)
  | Print kws args => Print (map f kws) (map (arg_map f) args)
  | Play kws v => Play (map f kws) (value_map f v)
  | Turtle t => Turtle (turtle_map f t)
  | Sleep kws d => Sleep (map f kws) (option_map (operand_map f) d)
  | Add kws vals tos target =>
      Add (map f kws) (map f vals) (map f tos) (f target)
  | Remove kws vals froms target =>
      Remove (map f kws) (map f vals) (map f froms) (f target)
  | ErrorInvalid ts => ErrorInvalid (map f ts)
  end.

(** The parser of [L2] reads in [f t] what the parser of [L1] reads in [t]. *)
Definition reads_alike (L1 L2 : Locale) (f : Token -> Token) (t : Token) : Prop :=
  is_text L2 (f t) = is_text L1 t
  /\ (forall k, is_kw L2 k (f t) = is_kw L1 k t)
  /\ is_string (f t) = is_string t
  /\ is_op (f t) = is_op t.

(** [f] keeps the kind of [t] and, when [t] is a word, gives it a spelling
    that [L2] resolves the way [L1] resolves the spelling of [t]. *)
Definition translates (L1 L2 : Locale) (f : Token -> Token) (t : Token) : Prop :=
  tk_kind (f t) = tk_kind t
  /\ (tk_kind t = Text ->
      readings L2 (tk_text (f t)) = readings L1 (tk_text t)).

(** The token [t] moved [n] code points to the right. *)
Definition shift (n : nat) (t : Token) : Token :=
  mkToken (tk_kind t) (n + tk_start t) (n + tk_end t) (tk_text t).

(** The token [t] with the comma [g k] in place of its comma [k]. *)
Definition recomma (g : Comma -> Comma) (t : Token) : Token :=
  match tk_kind t with
  | Op k => mkToken (Op (g k)) (tk_start t) (tk_end t) [comma_code (g k)]
  | _ => t
  end.

(** [p2] does on the images of the tokens what [p1] does on the tokens,
    as long as the tokens satisfy [P]. *)
Definition Natural {A} (P : Token -> Prop) (f : Token -> Token) (m : A -> A)
           (p1 p2 : Parser A) : Prop :=
  forall ts, Forall P ts ->
    p2 (map f ts) = map (fun ar => (m (fst ar), map f (snd ar))) (p1 ts)
    /\ (forall a r, In (a, r) (p1 ts) -> Forall P r).

(** ** Statements about lines *)

(** A lexer outcome moved [n] code points to the right. *)
Definition relocate (n : nat) (r : LexResult) : LexResult :=
  match r with
  | LexOk ts => LexOk (map (shift n) ts)
  | LexStuck p => LexStuck (n + p)
  | LexFuel => LexFuel
  end.

(** The outcome of lexing one piece and then the next. *)
Definition lex_app (r1 r2 : LexResult) : LexResult :=
  match r1 with
  | LexOk ta => match r2 with
                | LexOk tb => LexOk (ta ++ tb)
                | other => other
                end
  | other => other
  end.

(** What may follow the last token of a text without adding a token to any
    command: spaces, and then perhaps a comment. *)
Fixpoint is_trailer (t : list N) : bool :=
  match t with
  | [] => true
  | c :: r =>
      if (c =? blank)%N then is_trailer r
      else (c =? hash)%N && forallb commentChar r
  end.

Definition unskipped (t : Token) : bool := negb (skipped t).

(** ** Statements about the size and the start of a command *)

(** The least number of tokens that the rule of each tag takes. *)
Definition min_tokens (t : Tag) : nat :=
  match t with
  | TAssign => 3
  | TAssignList => 5
  | TAsk => 4
  | TClear => 1
  | TPrint => 2
  | TPlay => 2
  | TForward | TTurn | TColor => 2
  | TSleep => 1
  | TAdd => 4
  | TRemove => 4
  | TErrorInvalid => 1
  end.

(** The kinds of tokens that the rules take. *)
Definition in_rules (t : Token) : bool :=
  kind_is_text t || is_string t || is_op t.

(** The tokens of the commands of a program, in order. *)
Definition program_tokens (cs : list (option Command)) : list Token :=
  concat (map (fun o => match o with
                        | Some c => command_tokens c
                        | None => []
                        end) cs).

(** * The Parsons exercises ([static/js/parsons.ts]) *)

Module Parsons.

(** ** [fisherYatesShuffle] *)

Section Shuffle.

Variable A : Type.

(** [xs[i] = v] on an array that has an index [i]. *)
Fixpoint set_nth (i : nat) (v : A) (xs : list A) : list A :=
  match xs, i with
  | [], _ => []
  | _ :: r, O => v :: r
  | x :: r, S i' => x :: set_nth i' v r
  end.

(** The body of the loop: [h = xs[j]; xs[j] = xs[i]; xs[i] = h].  The loop
    keeps [j < i < xs.length]; outside the array the model leaves it as it
    is. *)
Definition swap (j i : nat) (xs : list A) : list A :=
  match nth_error xs j, nth_error xs i with
  | Some h, Some x => set_nth i h (set_nth j x xs)
  | _, _ => xs
  end.

(** [draw i] stands for [Math.floor(Math.random() * i)], the index drawn
    in the round of [i]; [Math.random()] lies in [0, 1), so the draw is
    below [i]. *)
Variable draw : nat -> nat.

(** [for (let i = ...; i >= 1; i--)]: the rounds [i], [i - 1], ..., [1]. *)
Fixpoint shuffle_from (i : nat) (xs : list A) : list A :=
  match i with
  | O => xs
  | S i' => shuffle_from i' (swap (draw i) i xs)
  end.

Definition fisherYatesShuffle (xs : list A) : list A :=
  shuffle_from (length xs - 1) xs.

End Shuffle.

(** The transposition of the indices [j] and [i]. *)
Definition transpose (j i n : nat) : nat :=
  if n =? i then j else if n =? j then i else n.

(** What holds of the array before the round of [i], for the array [xs]
    at the start: an element at an index up to [i] sits where it was in
    [xs] or comes from behind [i]; behind [i] nothing sits where it was;
    and when no round is left, neither does the first element. *)
Definition shuffled_so_far {A} (xs : list A) (i : nat) (cur : list A) : Prop :=
  length cur = length xs
  /\ (forall p q x, p <= i -> nth_error cur p = Some x ->
                    nth_error xs q = Some x -> q = p \/ i < q)
  /\ (forall p x, i < p -> nth_error cur p = Some x ->
                  nth_error xs p <> Some x)
  /\ (i = 0 -> 2 <= length xs ->
      forall x, nth_error cur 0 = Some x -> nth_error xs 0 <> Some x).

(** ** [parse_code_string_into_dict] *)

(** The characters that [trim] strips: the white space and the line
    terminators of ECMAScript. *)
Definition js_whitespace (c : N) : bool :=
  existsb (N.eqb c)
          [0x9; 0xA; 0xB; 0xC; 0xD; 0x20; 0xA0; 0x1680; 0x2028; 0x2029;
           0x202F; 0x205F; 0x3000; 0xFEFF]%N
  || in_range 0x2000 0x200A c.

(** [String(e).trim()] as a condition: the trimmed string is not empty. *)
Definition visible (e : list N) : bool :=
  existsb (fun c => negb (js_whitespace c)) e.

(** [code.split(/\r?\n/)]: [cur] holds the characters of the piece at hand,
    last first. *)
Fixpoint split_lines (cur : list N) (code : list N) : list (list N) :=
  match code with
  | [] => [rev cur]
  | c :: r =>
      if (c =? 10)%N then rev cur :: split_lines [] r
      else match r with
           | d :: r' =>
               if ((c =? 13) && (d =? 10))%N then rev cur :: split_lines [] r'
               else split_lines (c :: cur) r
           | [] => split_lines (c :: cur) r
           end
  end.

(** An object with numbers as keys. *)
Definition Dict := nat -> option (list N).

Definition empty_dict : Dict := fun _ => None.

Definition dict_set (k : nat) (v : list N) (d : Dict) : Dict :=
  fun k' => if k' =? k then Some v else d k'.

(** [for (index = 0; index < length; index++) code_lines[index + 1] = ...]:
    the rounds from [index] on, over what is left of the array. *)
Fixpoint fill (index : nat) (rest : list (list N)) (d : Dict) : Dict :=
  match rest with
  | [] => d
  | e :: r => fill (S index) r (dict_set (index + 1) e d)
  end.

Definition splitted_code (code : list N) : list (list N) :=
  filter visible (split_lines [] code).

Definition parse_code_string_into_dict (code : list N) : Dict :=
  fill 0 (splitted_code code) empty_dict.

End Parsons.

(** * Properties of the lexer *)

Lemma span_spec (p : N -> bool) (l : list N) :
  l = fst (span p l) ++ snd (span p l)
  /\ forallb p (fst (span p l)) = true
  /\ match snd (span p l) with
     | [] => True
     | c :: _ => p c = false
     end.
Proof.
  induction l as [|c r IH]; simpl.
  - auto.
  - destruct (p c) eqn:Hc.
    + destruct (span p r) as [run rest]. simpl in *.
      destruct IH as (-> & Hrun & Hrest). rewrite Hc. auto.
    + simpl. auto.
Qed.

Lemma span_all (p : N -> bool) (run rest : list N) :
  forallb p run = true ->
  match rest with [] => True | c :: _ => p c = false end ->
  span p (run ++ rest) = (run, rest).
Proof.
  intros Hrun Hrest. induction run as [|c r IH]; simpl.
  - destruct rest as [|c r]; [reflexivity|]. simpl. now rewrite Hrest.
  - simpl in Hrun. apply andb_true_iff in Hrun. destruct Hrun as [Hc Hr].
    rewrite Hc, (IH Hr). reflexivity.
Qed.

Lemma comma_of_code (k : Comma) : comma_of (comma_code k) = Some k.
Proof. destruct k; reflexivity. Qed.

Lemma comma_of_some (c : N) (k : Comma) : comma_of c = Some k -> c = comma_code k.
Proof.
  unfold comma_of. intros H. apply find_some in H. destruct H as [_ H].
  apply N.eqb_eq in H. auto.
Qed.

(** The token taken at the head of the input is a non-empty prefix of it
    and has the shape of its kind. *)
Lemma next_token_spec input k w rest :
  next_token input = Some (k, w, rest) ->
  input = w ++ rest /\ w <> [] /\ token_shape k w.
Proof.
  unfold next_token. destruct input as [|c r]; [discriminate|].
  destruct (c =? hash)%N eqn:Hh.
  { pose proof (span_spec commentChar r) as (Hr & Hrun & _).
    destruct (span commentChar r) as [body rest']. simpl in *.
    intros H. inversion H; subst. apply N.eqb_eq in Hh. subst c.
    repeat split; try discriminate. exists body. auto. }
  destruct (c =? lf)%N eqn:Hl.
  { intros H. inversion H; subst. apply N.eqb_eq in Hl. subst.
    repeat split; discriminate. }
  destruct (c =? blank)%N eqn:Hb.
  { intros H. inversion H; subst. apply N.eqb_eq in Hb. subst.
    repeat split; discriminate. }
  destruct (textChar c) eqn:Ht.
  { pose proof (span_spec textChar r) as (Hr & Hrun & _).
    destruct (span textChar r) as [run rest']. simpl in *.
    intros H. inversion H; subst.
    repeat split; try discriminate. simpl. now rewrite Ht. }
  destruct (is_quote c) eqn:Hq.
  { pose proof (span_spec (stringChar c) r) as (Hr & Hrun & _).
    destruct (span (stringChar c) r) as [body rest']. simpl in *.
    destruct rest' as [|q rest'']; [discriminate|].
    destruct (q =? c)%N eqn:Hqc; [|discriminate].
    intros H. inversion H; subst. apply N.eqb_eq in Hqc. subst q.
    repeat split; try discriminate.
    - simpl. now rewrite <- app_assoc.
    - exists c, body. auto. }
  destruct (comma_of c) as [k'|] eqn:Hc; [|discriminate].
  intros H. inversion H; subst. apply comma_of_some in Hc. subst.
  repeat split; discriminate.
Qed.

(** A [Text] token stops only where no [Text] character follows, and
    starts only at a [Text] character. *)
Lemma next_token_text_stop input w rest :
  next_token input = Some (Text, w, rest) ->
  match rest with [] => True | c :: _ => textChar c = false end.
Proof.
  unfold next_token. destruct input as [|c r]; [discriminate|].
  destruct (c =? hash)%N.
  { destruct (span commentChar r). discriminate. }
  destruct (c =? lf)%N; [discriminate|].
  destruct (c =? blank)%N; [discriminate|].
  destruct (textChar c).
  { pose proof (span_spec textChar r) as (_ & _ & Hrest).
    destruct (span textChar r) as [run rest']. simpl in *.
    intros H. inversion H; subst. exact Hrest. }
  destruct (is_quote c).
  { destruct (span (stringChar c) r) as [body [|q rest'']]; [discriminate|].
    destruct (q =? c)%N; discriminate. }
  destruct (comma_of c); discriminate.
Qed.

Lemma next_token_text_start c r w rest :
  next_token (c :: r) = Some (Text, w, rest) -> textChar c = true.
Proof.
  unfold next_token.
  destruct (c =? hash)%N.
  { destruct (span commentChar r). discriminate. }
  destruct (c =? lf)%N; [discriminate|].
  destruct (c =? blank)%N; [discriminate|].
  destruct (textChar c); [reflexivity|].
  destruct (is_quote c).
  { destruct (span (stringChar c) r) as [body [|q rest'']]; [discriminate|].
    destruct (q =? c)%N; discriminate. }
  destruct (comma_of c); discriminate.
Qed.

Lemma lex_cons_ok t r ts :
  lex_cons t r = LexOk ts -> exists ts', r = LexOk ts' /\ ts = t :: ts'.
Proof. destruct r; simpl; intros H; inversion H; eauto. Qed.



(** What a successful run of the lexer returns. *)
Lemma lex_from_ok fuel pos input ts :
  lex_from fuel pos input = LexOk ts ->
  concat (map tk_text ts) = input
  /\ chained pos (pos + length input) ts
  /\ Forall (fun t => token_shape (tk_kind t) (tk_text t)) ts
  /\ text_maximal ts.
Proof.
  revert pos input ts. induction fuel as [|n IH]; intros pos input ts.
  - destruct input; simpl; intros H; inversion H; subst. simpl.
    repeat split; auto.
  - destruct input as [|c r].
    { simpl. intros H. inversion H; subst. simpl. repeat split; auto. }
    cbn [lex_from]. destruct (next_token (c :: r)) as [[[k w] rest]|] eqn:Hn;
      [|discriminate].
    intros H. apply lex_cons_ok in H. destruct H as (ts' & Hrec & ->).
    pose proof (next_token_spec _ Hn) as (Hin & Hw & Hshape).
    destruct (IH _ _ _ Hrec) as (Hcat & Hch & Hall & Hmax).
    rewrite Hin. simpl. rewrite Hcat. repeat split.
    + destruct w; [congruence | simpl; lia].
    + rewrite length_app, Nat.add_assoc. exact Hch.
    + constructor; assumption.
    + destruct ts' as [|u ts'']; [exact I|]. split; [|exact Hmax].
      intros [Hk Hu]. simpl in Hk. subst k.
      apply next_token_text_stop in Hn.
      destruct n as [|m]; destruct rest as [|c' r']; cbn [lex_from] in Hrec;
        try discriminate Hrec.
      destruct (next_token (c' :: r')) as [[[k' w'] rest']|] eqn:Hn';
        [|discriminate Hrec].
      apply lex_cons_ok in Hrec. destruct Hrec as (? & _ & Heq).
      inversion Heq; subst. simpl in Hu. subst k'.
      apply next_token_text_start in Hn'. congruence.
Qed.

Lemma lex_ok input ts :
  lex input = LexOk ts ->
  concat (map tk_text ts) = input
  /\ chained 0 (length input) ts
  /\ Forall (fun t => token_shape (tk_kind t) (tk_text t)) ts
  /\ text_maximal ts.
Proof. intros H. apply lex_from_ok in H. exact H. Qed.






Lemma chained_bounds pos stop ts :
  chained pos stop ts -> pos <= stop.
Proof.
  revert pos. induction ts as [|t r IH]; simpl; intros pos.
  - lia.
  - intros (Hs & He & Hlt & Hr). apply IH in Hr. lia.
Qed.

Lemma textChar_starts_text c :
  textChar c = true ->
  (c =? hash)%N = false /\ (c =? lf)%N = false /\ (c =? blank)%N = false.
Proof.
  intros H. repeat split.
  - destruct (c =? hash)%N eqn:E; [|reflexivity].
    apply N.eqb_eq in E. subst. discriminate H.
  - destruct (c =? lf)%N eqn:E; [|reflexivity].
    apply N.eqb_eq in E. subst. discriminate H.
  - destruct (c =? blank)%N eqn:E; [|reflexivity].
    apply N.eqb_eq in E. subst. discriminate H.
Qed.

Lemma next_token_text_run run rest :
  run <> [] ->
  forallb textChar run = true ->
  match rest with [] => True | c :: _ => textChar c = false end ->
  next_token (run ++ rest) = Some (Text, run, rest).
Proof.
  intros Hne Hrun Hrest. destruct run as [|c r]; [congruence|].
  simpl in Hrun. apply andb_true_iff in Hrun. destruct Hrun as [Hc Hr].
  simpl. destruct (@textChar_starts_text c Hc) as (-> & -> & ->).
  rewrite Hc, (span_all textChar r rest Hr Hrest). reflexivity.
Qed.

Lemma next_token_string q body rest :
  is_quote q = true ->
  forallb (stringChar q) body = true ->
  next_token (q :: body ++ q :: rest) = Some (String, q :: body ++ [q], rest).
Proof.
  intros Hq Hbody. unfold next_token.
  assert (Hcases : q = dquote \/ q = squote).
  { unfold is_quote in Hq. apply orb_true_iff in Hq.
    destruct Hq as [H|H]; apply N.eqb_eq in H; auto. }
  assert (Hspan : span (stringChar q) (body ++ q :: rest) = (body, q :: rest)).
  { apply span_all; [exact Hbody|]. unfold stringChar.
    rewrite N.eqb_refl, !orb_true_r. reflexivity. }
  destruct Hcases as [-> | ->]; cbn -[span stringChar];
    rewrite Hspan; reflexivity.
Qed.

Lemma forallb_stringChar q body :
  forallb (stringChar q) body = true <->
  ~ In backslash body /\ ~ In lf body /\ ~ In q body.
Proof.
  rewrite forallb_forall. unfold stringChar. split.
  - intros H. repeat split; intros Hin; apply H in Hin;
      rewrite N.eqb_refl in Hin; simpl in Hin;
      rewrite ?orb_true_r in Hin; discriminate Hin.
  - intros (Hb & Hl & Hq) c Hin.
    destruct (c =? backslash)%N eqn:E1;
      [apply N.eqb_eq in E1; subst; contradiction|].
    destruct (c =? lf)%N eqn:E2;
      [apply N.eqb_eq in E2; subst; contradiction|].
    destruct (c =? q)%N eqn:E3;
      [apply N.eqb_eq in E3; subst; contradiction|].
    reflexivity.
Qed.

(** Any budget that covers the input gives the same tokens. *)
Lemma lex_from_enough fuel fuel' pos input :
  length input <= fuel -> length input <= fuel' ->
  lex_from fuel pos input = lex_from fuel' pos input.
Proof.
  revert fuel' pos input. induction fuel as [|n IH]; intros fuel' pos input H H'.
  - destruct input; [|simpl in H; lia]. destruct fuel'; reflexivity.
  - destruct input as [|c r]; [destruct fuel'; reflexivity|].
    destruct fuel' as [|m]; [simpl in H'; lia|].
    cbn [lex_from]. destruct (next_token (c :: r)) as [[[k w] rest]|] eqn:Hn;
      [|reflexivity].
    apply next_token_spec in Hn. destruct Hn as (Hin & Hw & _).
    assert (Hr : length rest < length (c :: r)).
    { rewrite Hin, length_app. destruct w; [congruence | simpl; lia]. }
    simpl in H, H', Hr. rewrite (IH m); [reflexivity | lia | lia].
Qed.

(** A word followed by something that is no [Text] character is the first
    token. *)
Lemma lex_word (w rest : list N) :
  w <> [] -> forallb textChar w = true ->
  match rest with [] => True | c :: _ => textChar c = false end ->
  lex (w ++ rest)
  = lex_cons (mkToken Text 0 (length w) w)
             (lex_from (length rest) (length w) rest).
Proof.
  intros Hne Hw Hrest. unfold lex.
  pose proof (@next_token_text_run w rest Hne Hw Hrest) as Hn.
  destruct w as [|c r]; [congruence|].
  change (length ((c :: r) ++ rest)) with (S (length (r ++ rest))).
  cbn [lex_from]. simpl app in Hn |- *. rewrite Hn. cbn [Nat.add].
  f_equal. apply lex_from_enough; [|lia].
  rewrite length_app. simpl. lia.
Qed.
(** * Properties of the parsers *)

(** ** What a parser recognises *)

Lemma Recognises_change {A} (D D' : A -> Prop) p toks toks' wf wf' :
  Recognises D p toks wf ->
  (forall a, D' a <-> D a) ->
  (forall a, D a -> toks' a = toks a) ->
  (forall a, D a -> wf' a = wf a) ->
  Recognises D' p toks' wf'.
Proof.
  intros H HD Ht Hw ts a r. rewrite (H ts a r), HD.
  split; intros (Ha & Hwf & Hts); repeat split; auto.
  - now rewrite Hw.
  - now rewrite Ht.
  - now rewrite <- Hw.
  - now rewrite <- Ht.
Qed.

Lemma satisfy_spec (f : Token -> bool) :
  Recognises Anything (satisfy f) (fun t => [t]) f.
Proof.
  intros ts a r. unfold satisfy, Anything. destruct ts as [|t ts]; simpl.
  - split; [tauto | intros (_ & _ & H); discriminate H].
  - destruct (f t) eqn:Hf; simpl; split.
    + intros [H | []]. inversion H; subst. auto.
    + intros (_ & _ & H). inversion H; subst. now left.
    + tauto.
    + intros (_ & Ha & H). inversion H; subst. congruence.
Qed.

Lemma in_pmap {A B} (g : A -> B) (p : Parser A) ts b r :
  In (b, r) (pmap g p ts) <-> exists a, b = g a /\ In (a, r) (p ts).
Proof.
  unfold pmap. rewrite in_map_iff. split.
  - intros ([a r'] & H & Hin). simpl in H. inversion H; subst. eauto.
  - intros (a & -> & Hin). exists (a, r). auto.
Qed.

Lemma pmap_spec {A B} (g : A -> B) D (p : Parser A) ta wa tb wb :
  Recognises D p ta wa ->
  (forall a, D a -> tb (g a) = ta a) ->
  (forall a, D a -> wb (g a) = wa a) ->
  Recognises (fun b => exists a, D a /\ b = g a) (pmap g p) tb wb.
Proof.
  intros H Ht Hw ts b r. rewrite in_pmap. split.
  - intros (a & -> & Hin). apply H in Hin. destruct Hin as (Ha & Hwa & ->).
    rewrite Ht, Hw by assumption. eauto.
  - intros ((a & Ha & ->) & Hwb & ->). exists a. split; [reflexivity|].
    apply H. rewrite <- Ht, <- Hw by assumption. auto.
Qed.

Lemma seq_spec {A B} Da Db (p : Parser A) (q : Parser B) ta wa tb wb :
  Recognises Da p ta wa ->
  Recognises Db q tb wb ->
  Recognises (fun x => Da (fst x) /\ Db (snd x)) (seq p q)
             (fun x => ta (fst x) ++ tb (snd x))
             (fun x => wa (fst x) && wb (snd x)).
Proof.
  intros Hp Hq ts [a b] r. unfold seq. rewrite in_flat_map. simpl. split.
  - intros ([a' m] & Hin & Hin'). rewrite in_map_iff in Hin'.
    destruct Hin' as ([b' r'] & Heq & Hin'). simpl in Heq.
    inversion Heq; subst. simpl in Hin'.
    apply (proj1 (Hp _ _ _)) in Hin. apply (proj1 (Hq _ _ _)) in Hin'.
    destruct Hin as (? & -> & ->). destruct Hin' as (? & -> & ->).
    rewrite <- app_assoc. auto.
  - intros ((Ha & Hb) & Hw & ->). apply andb_true_iff in Hw.
    destruct Hw as [Hwa Hwb]. exists (a, tb b ++ r). split.
    + apply Hp. rewrite <- app_assoc. auto.
    + apply in_map_iff. exists (b, r). split; [reflexivity|].
      apply Hq. auto.
Qed.

Lemma alt_spec {A} D1 D2 (p q : Parser A) toks wf :
  Recognises D1 p toks wf ->
  Recognises D2 q toks wf ->
  Recognises (fun a => D1 a \/ D2 a) (alt p q) toks wf.
Proof.
  intros Hp Hq ts a r. unfold alt. rewrite in_app_iff, (Hp ts a r), (Hq ts a r).
  tauto.
Qed.

Lemma opt_spec {A} D (p : Parser A) toks wf :
  Recognises D p toks wf ->
  Recognises (fun o => match o with Some a => D a | None => True end)
             (opt p)
             (fun o => match o with Some a => toks a | None => [] end)
             (fun o => match o with Some a => wf a | None => true end).
Proof.
  intros Hp ts o r. unfold opt. rewrite in_app_iff, in_pmap. split.
  - intros [(a & -> & Hin) | [H | []]].
    + now apply Hp in Hin.
    + inversion H; subst. auto.
  - destruct o as [a|]; intros (Ha & Hw & Hts).
    + left. exists a. split; [reflexivity|]. apply Hp. auto.
    + right. left. simpl in Hts. now subst.
Qed.

Lemma many1_spec {A} (p : Parser A) toks wf :
  Recognises Anything p toks wf ->
  (forall a, wf a = true -> toks a <> []) ->
  forall fuel ts l r,
    length ts <= fuel ->
    (In (l, r) (many1 fuel p ts) <->
     nonempty l && forallb wf l = true /\ ts = concat (map toks l) ++ r).
Proof.
  intros Hp Hne. induction fuel as [|n IH]; intros ts l r Hlen.
  - simpl. split; [tauto|]. intros (Hw & Hts).
    destruct l as [|a l]; [discriminate Hw|]. simpl in Hw, Hts.
    apply andb_true_iff in Hw. destruct Hw as [Hwa _].
    apply Hne in Hwa. destruct (toks a); [congruence|].
    subst ts. simpl in Hlen. lia.
  - simpl. rewrite in_flat_map. split.
    + intros ([a m] & Hin & Hin'). simpl in Hin'.
      apply Hp in Hin. destruct Hin as (_ & Hwa & ->).
      assert (Hm : length m <= n).
      { pose proof (Hne a Hwa) as Hta. rewrite length_app in Hlen.
        destruct (toks a); [congruence|]. simpl in Hlen. lia. }
      destruct Hin' as [Heq | Hin'].
      * inversion Heq; subst. simpl. rewrite Hwa, app_nil_r. auto.
      * apply in_map_iff in Hin'. destruct Hin' as ([l' r'] & Heq & Hin').
        simpl in Heq. inversion Heq; subst.
        apply (proj1 (IH m l' r Hm)) in Hin'. destruct Hin' as (Hw & ->).
        simpl. rewrite Hwa, <- app_assoc. simpl.
        apply andb_true_iff in Hw. destruct Hw as [_ Hw]. auto.
    + intros (Hw & ->). destruct l as [|a l]; [discriminate Hw|].
      simpl in Hw. apply andb_true_iff in Hw. destruct Hw as [Hwa Hwl].
      simpl. rewrite <- app_assoc.
      assert (Hm : length (concat (map toks l) ++ r) <= n).
      { pose proof (Hne a Hwa) as Hta. simpl in Hlen.
        rewrite <- app_assoc, length_app in Hlen.
        destruct (toks a); [congruence|]. simpl in Hlen. lia. }
      exists (a, concat (map toks l) ++ r). split.
      * apply Hp. unfold Anything. auto.
      * simpl. destruct l as [|b l]; [left; reflexivity|]. right.
        apply in_map_iff. exists (b :: l, r). split; [reflexivity|].
        apply IH; [exact Hm|].
        simpl. simpl in Hwl. rewrite Hwl. auto.
Qed.

Lemma plus_spec {A} (p : Parser A) toks wf :
  Recognises Anything p toks wf ->
  (forall a, wf a = true -> toks a <> []) ->
  Recognises Anything (plus p)
             (fun l => concat (map toks l))
             (fun l => nonempty l && forallb wf l).
Proof.
  intros Hp Hne ts l r. unfold plus, Anything.
  pose proof (@many1_spec _ p toks wf Hp Hne (length ts) ts l r (le_n _)) as H.
  rewrite H. tauto.
Qed.

Lemma concat_singletons {A} (l : list A) : concat (map (fun t => [t]) l) = l.
Proof. induction l; simpl; congruence. Qed.

(** A run of single tokens. *)
Lemma run_spec (f : Token -> bool) :
  Recognises Anything (plus (satisfy f)) (fun l => l) (run f).
Proof.
  eapply Recognises_change.
  - apply (plus_spec (satisfy_spec f)). intros a _. discriminate.
  - reflexivity.
  - intros l _. symmetry. apply concat_singletons.
  - reflexivity.
Qed.

(** ** The rules recognise their derivations *)

Section RuleSpecs.

Variable L : Locale.

Lemma text_spec : Recognises Anything (text L) (fun t => [t]) (is_text L).
Proof. apply satisfy_spec. Qed.

Lemma index_spec : Recognises Anything (index L) index_tokens (wf_index L).
Proof.
  eapply Recognises_change.
  - unfold index. apply alt_spec.
    + eapply pmap_spec with (tb := index_tokens) (wb := wf_index L);
        [apply run_spec | reflexivity | reflexivity].
    + eapply pmap_spec with (tb := index_tokens) (wb := wf_index L);
        [apply text_spec | reflexivity | reflexivity].
  - intros [rs|t]; unfold Anything; split; eauto.
  - reflexivity.
  - reflexivity.
Qed.

Lemma listAccess_spec :
  Recognises Anything (listAccess L) access_tokens (wf_access L).
Proof.
  eapply Recognises_change.
  - unfold listAccess.
    eapply pmap_spec with (tb := access_tokens) (wb := wf_access L).
    + apply seq_spec; [apply seq_spec; [apply text_spec | apply run_spec]
                      | apply index_spec].
    + intros [[n ats] i] _. unfold access_tokens. simpl. reflexivity.
    + intros [[n ats] i] _. reflexivity.
  - intros [n ats i]. unfold Anything. split; [intros _ | trivial].
    exists (n, ats, i). simpl. auto.
  - reflexivity.
  - reflexivity.
Qed.

Lemma arg_spec : Recognises Anything (arg L) arg_tokens (wf_arg L).
Proof.
  eapply Recognises_change.
  - unfold arg. repeat apply alt_spec.
    + eapply pmap_spec with (tb := arg_tokens) (wb := wf_arg L);
        [apply satisfy_spec | reflexivity | reflexivity].
    + eapply pmap_spec with (tb := arg_tokens) (wb := wf_arg L);
        [apply text_spec | reflexivity | reflexivity].
    + eapply pmap_spec with (tb := arg_tokens) (wb := wf_arg L);
        [apply listAccess_spec | reflexivity | reflexivity].
  - intros [t|t|l]; unfold Anything; split; eauto 6.
  - reflexivity.
  - reflexivity.
Qed.

Lemma operand_spec :
  Recognises Anything (operand L) operand_tokens (wf_operand L).
Proof.
  eapply Recognises_change.
  - unfold operand. apply alt_spec.
    + eapply pmap_spec with (tb := operand_tokens) (wb := wf_operand L);
        [apply text_spec | reflexivity | reflexivity].
    + eapply pmap_spec with (tb := operand_tokens) (wb := wf_operand L);
        [apply listAccess_spec | reflexivity | reflexivity].
  - intros [t|l]; unfold Anything; split; eauto.
  - reflexivity.
  - reflexivity.
Qed.

Lemma value_spec :
  Recognises Anything
    (alt (pmap ValueTexts (plus (text L))) (pmap ValueListAccess (listAccess L)))
    value_tokens (wf_value L).
Proof.
  eapply Recognises_change.
  - apply alt_spec.
    + eapply pmap_spec with (tb := value_tokens) (wb := wf_value L);
        [apply run_spec | reflexivity | reflexivity].
    + eapply pmap_spec with (tb := value_tokens) (wb := wf_value L);
        [apply listAccess_spec | reflexivity | reflexivity].
  - intros [t|l]; unfold Anything; split; eauto.
  - reflexivity.
  - reflexivity.
Qed.

Lemma notes_spec :
  Recognises Anything
    (alt (pmap ValueListAccess (listAccess L)) (pmap ValueTexts (plus (text L))))
    value_tokens (wf_value L).
Proof.
  eapply Recognises_change.
  - apply alt_spec.
    + eapply pmap_spec with (tb := value_tokens) (wb := wf_value L);
        [apply listAccess_spec | reflexivity | reflexivity].
    + eapply pmap_spec with (tb := value_tokens) (wb := wf_value L);
        [apply run_spec | reflexivity | reflexivity].
  - intros [t|l]; unfold Anything; split; eauto.
  - reflexivity.
  - reflexivity.
Qed.

Lemma arg_takes_a_token a : wf_arg L a = true -> arg_tokens a <> [].
Proof. destruct a as [t|t|[n ats i]]; simpl; discriminate. Qed.

Lemma args_spec :
  Recognises Anything (plus (arg L))
             (fun l => concat (map arg_tokens l))
             (fun l => nonempty l && forallb (wf_arg L) l).
Proof. apply (plus_spec arg_spec). apply arg_takes_a_token. Qed.

Lemma items_spec :
  Recognises Anything (plus (seq op (plus (text L))))
             (fun l => concat (map item_tokens l))
             (fun l => nonempty l && forallb (wf_item L) l).
Proof.
  apply (@plus_spec _ (seq op (plus (text L))) item_tokens (wf_item L)).
  - eapply Recognises_change.
    + apply seq_spec; [apply satisfy_spec | apply run_spec].
    + intros [o ts]. unfold Anything. simpl. tauto.
    + reflexivity.
    + reflexivity.
  - intros [o ts] _. discriminate.
Qed.

Ltac rule_image :=
  let c := fresh "c" in
  let H := fresh "H" in
  let x := fresh "x" in
  intros c; split;
  [ intros H;
    destruct c as [? ? ?|? ? ? ?|? ? ? ?|?|? ?|? ?|[? ?|? ?|? ?]|? ?|? ? ? ?|? ? ? ?|?];
    unfold built_by in H; simpl in H;
    try (exfalso; intuition discriminate);
    first [ refine (ex_intro _ (_, _, _, _) (conj _ eq_refl))
          | refine (ex_intro _ (_, _, _) (conj _ eq_refl))
          | refine (ex_intro _ (_, _) (conj _ eq_refl))
          | refine (ex_intro _ _ (conj _ eq_refl)) ];
    simpl; unfold Anything; tauto
  | intros (x & _ & ->); unfold built_by; simpl; auto ].

Ltac rule_spec inner :=
  eapply Recognises_change;
  [ eapply pmap_spec with (tb := command_tokens) (wb := wf_command L);
    [ inner
    | let x := fresh "x" in
      intros x _; repeat (destruct x as [x ?]); simpl;
      rewrite <- ?app_assoc; reflexivity
    | let x := fresh "x" in
      intros x _; repeat (destruct x as [x ?]); reflexivity ]
  | rule_image
  | reflexivity
  | reflexivity ].

Lemma assignRule_spec :
  Recognises (built_by [TAssign]) (assignRule L) command_tokens (wf_command L).
Proof.
  unfold assignRule.
  rule_spec ltac:(apply seq_spec;
                  [apply seq_spec; [apply text_spec | apply run_spec]
                  | apply value_spec]).
Qed.

Lemma assignListRule_spec :
  Recognises (built_by [TAssignList]) (assignListRule L)
             command_tokens (wf_command L).
Proof.
  unfold assignListRule.
  rule_spec ltac:(apply seq_spec;
                  [apply seq_spec;
                   [apply seq_spec; [apply text_spec | apply run_spec]
                   | apply run_spec]
                  | apply items_spec]).
Qed.

Lemma askRule_spec :
  Recognises (built_by [TAsk]) (askRule L) command_tokens (wf_command L).
Proof.
  unfold askRule.
  rule_spec ltac:(apply seq_spec;
                  [apply seq_spec;
                   [apply seq_spec; [apply text_spec | apply run_spec]
                   | apply run_spec]
                  | apply args_spec]).
Qed.

Lemma clearRule_spec :
  Recognises (built_by [TClear]) (clearRule L) command_tokens (wf_command L).
Proof. unfold clearRule. rule_spec ltac:(apply run_spec). Qed.

Lemma printRule_spec :
  Recognises (built_by [TPrint]) (printRule L) command_tokens (wf_command L).
Proof.
  unfold printRule.
  rule_spec ltac:(apply seq_spec; [apply run_spec | apply args_spec]).
Qed.

Lemma playRule_spec :
  Recognises (built_by [TPlay]) (playRule L) command_tokens (wf_command L).
Proof.
  unfold playRule.
  rule_spec ltac:(apply seq_spec; [apply run_spec | apply notes_spec]).
Qed.

Lemma turtle_spec :
  Recognises Anything
    (alt (alt (pmap (fun x => Forward (fst x) (snd x))
                    (seq (plus (kw L forward)) (operand L)))
              (pmap (fun x => Turn (fst x) (snd x))
                    (seq (plus (kw L turn)) (operand L))))
         (pmap (fun x => Color (fst x) (snd x))
               (seq (plus (kw L color)) (operand L))))
    turtle_tokens (wf_turtle L).
Proof.
  eapply Recognises_change.
  - repeat apply alt_spec;
      (eapply pmap_spec with (tb := turtle_tokens) (wb := wf_turtle L);
       [ apply seq_spec; [apply run_spec | apply operand_spec]
       | intros [kws v] _; reflexivity
       | intros [kws v] _; reflexivity ]).
  - intros [kws v|kws v|kws v]; unfold Anything; split; trivial; intros _.
    + left. left. exists (kws, v). simpl. auto.
    + left. right. exists (kws, v). simpl. auto.
    + right. exists (kws, v). simpl. auto.
  - reflexivity.
  - reflexivity.
Qed.

Lemma turtleRule_spec :
  Recognises (built_by [TForward; TTurn; TColor]) (turtleRule L)
             command_tokens (wf_command L).
Proof.
  unfold turtleRule. rule_spec ltac:(apply turtle_spec).
  destruct x; auto.
Qed.

Lemma sleepRule_spec :
  Recognises (built_by [TSleep]) (sleepRule L) command_tokens (wf_command L).
Proof.
  unfold sleepRule.
  eapply Recognises_change.
  - eapply pmap_spec with (tb := command_tokens) (wb := wf_command L).
    + apply seq_spec; [apply run_spec | apply opt_spec; apply operand_spec].
    + intros [kws [v|]] _; reflexivity.
    + intros [kws [v|]] _; reflexivity.
  - intros c; split.
    + intros H.
      destruct c as [? ? ?|? ? ? ?|? ? ? ?|?|? ?|? ?|[? ?|? ?|? ?]|kws d|? ? ? ?|? ? ? ?|?];
        unfold built_by in H; simpl in H;
        try (exfalso; intuition discriminate).
      exists (kws, d). simpl. unfold Anything. destruct d; auto.
    + intros (x & _ & ->). unfold built_by. simpl. auto.
  - reflexivity.
  - reflexivity.
Qed.

Lemma addRule_spec :
  Recognises (built_by [TAdd]) (addRule L) command_tokens (wf_command L).
Proof.
  unfold addRule.
  rule_spec ltac:(apply seq_spec;
                  [apply seq_spec;
                   [apply seq_spec; [apply run_spec | apply run_spec]
                   | apply run_spec]
                  | apply text_spec]).
Qed.

Lemma removeRule_spec :
  Recognises (built_by [TRemove]) (removeRule L) command_tokens (wf_command L).
Proof.
  unfold removeRule.
  rule_spec ltac:(apply seq_spec;
                  [apply seq_spec;
                   [apply seq_spec; [apply run_spec | apply run_spec]
                   | apply run_spec]
                  | apply text_spec]).
Qed.

Lemma errorInvalidRule_spec :
  Recognises (built_by [TErrorInvalid]) (errorInvalidRule L)
             command_tokens (wf_command L).
Proof. unfold errorInvalidRule. rule_spec ltac:(apply run_spec). Qed.

(** The parser of [Command] returns exactly the derivations of a prefix. *)
Lemma command_spec :
  Recognises Anything (command L) command_tokens (wf_command L).
Proof.
  eapply Recognises_change.
  - unfold command. repeat apply alt_spec.
    + apply assignRule_spec.
    + apply assignListRule_spec.
    + apply askRule_spec.
    + apply clearRule_spec.
    + apply printRule_spec.
    + apply playRule_spec.
    + apply turtleRule_spec.
    + apply sleepRule_spec.
    + apply addRule_spec.
    + apply removeRule_spec.
    + apply errorInvalidRule_spec.
  - intros c. unfold Anything, built_by. split; [intros _ | trivial].
    destruct c as [? ? ?|? ? ? ?|? ? ? ?|?|? ?|? ?|[? ?|? ?|? ?]|? ?|? ? ? ?|? ? ? ?|?];
      simpl; auto 20.
  - reflexivity.
  - reflexivity.
Qed.

(** Soundness and completeness of the parser: the trees it returns for a
    statement are exactly the derivations of that statement. *)
Lemma all_parses_spec (ts : list Token) (c : Command) :
  In c (all_parses L ts) <-> Derives L c ts.
Proof.
  unfold all_parses, Derives. rewrite in_map_iff. split.
  - intros ([c' r] & Heq & Hin). simpl in Heq. subst c'.
    apply filter_In in Hin. destruct Hin as [Hin Hr]. simpl in Hr.
    destruct r; [|discriminate Hr].
    apply command_spec in Hin. destruct Hin as (_ & Hw & ->).
    rewrite app_nil_r. auto.
  - intros [Hw <-]. exists (c, []). split; [reflexivity|].
    apply filter_In. split; [|reflexivity].
    apply command_spec. rewrite app_nil_r. unfold Anything. auto.
Qed.

End RuleSpecs.

(** ** The choice among derivations *)

Lemma select_none (cs : list Command) : select cs = None -> cs = [].
Proof.
  destruct cs as [|c r]; [reflexivity|]. simpl.
  destruct (select r) as [d|]; [|discriminate].
  destruct (dynamicPrecedence d <=? dynamicPrecedence c)%Z; discriminate.
Qed.

Lemma select_in (cs : list Command) (c : Command) :
  select cs = Some c -> In c cs.
Proof.
  revert c. induction cs as [|a r IH]; simpl; intros c; [discriminate|].
  destruct (select r) as [d|].
  - destruct (dynamicPrecedence d <=? dynamicPrecedence a)%Z;
      intros H; inversion H; subst; auto.
  - intros H. inversion H. auto.
Qed.

Lemma select_max (cs : list Command) (c : Command) :
  select cs = Some c ->
  forall d, In d cs -> (dynamicPrecedence d <= dynamicPrecedence c)%Z.
Proof.
  revert c. induction cs as [|a r IH]; simpl; intros c; [discriminate|].
  destruct (select r) as [b|] eqn:Hr.
  - destruct (dynamicPrecedence b <=? dynamicPrecedence a)%Z eqn:Hc;
      intros H; inversion H; subst; intros d [-> | Hd].
    + lia.
    + apply Z.leb_le in Hc. specialize (IH b eq_refl d Hd). lia.
    + apply Z.leb_gt in Hc. lia.
    + apply (IH c eq_refl d Hd).
  - apply select_none in Hr. subst r. intros H. inversion H; subst.
    intros d [-> | []]. lia.
Qed.

(** Among derivations that are all the same, that one is kept. *)
Lemma select_only (cs : list Command) (c : Command) :
  In c cs -> (forall d, In d cs -> d = c) -> select cs = Some c.
Proof.
  intros Hin Hall. destruct (select cs) as [d|] eqn:Hs.
  - apply select_in in Hs. apply Hall in Hs. congruence.
  - apply select_none in Hs. subst. contradiction.
Qed.

Lemma named_precedence (c : Command) :
  named c = true <-> dynamicPrecedence c = 0%Z.
Proof. destruct c; simpl; split; intros H; auto; discriminate. Qed.

Lemma precedence_cases (c : Command) :
  (dynamicPrecedence c = 0 \/ dynamicPrecedence c = -10)%Z.
Proof. destruct c; simpl; auto. Qed.

Section Choice.

Variable L : Locale.

Lemma parse_statement_derives ts c :
  parse_statement L ts = Some c -> Derives L c ts.
Proof. intros H. apply select_in in H. now apply all_parses_spec. Qed.

(** A statement with a named derivation parses to a named command. *)
Lemma parse_statement_named ts c :
  Derives L c ts -> named c = true ->
  exists r, parse_statement L ts = Some r /\ named r = true /\ Derives L r ts.
Proof.
  intros Hc Hn. apply all_parses_spec in Hc. unfold parse_statement.
  destruct (select (all_parses L ts)) as [r|] eqn:Hs.
  - exists r. split; [reflexivity|]. split.
    + pose proof (select_max _ Hs c Hc) as Hle.
      apply named_precedence in Hn. apply named_precedence.
      destruct (precedence_cases r); lia.
    + apply select_in in Hs. now apply all_parses_spec.
  - apply select_none in Hs. rewrite Hs in Hc. contradiction.
Qed.

(** A statement parses to the fallback exactly when it is a run of [Text]
    tokens that no named rule derives. *)
Lemma parse_statement_fallback ts :
  parse_statement L ts = Some (ErrorInvalid ts) <->
  run (is_text L) ts = true /\ (forall c, Derives L c ts -> named c = false).
Proof.
  split.
  - intros H. split.
    + apply parse_statement_derives in H. destruct H as [Hw _]. exact Hw.
    + intros c Hc. destruct (named c) eqn:Hn; [|reflexivity].
      destruct (parse_statement_named Hc Hn) as (r & Hr & Hrn & _).
      rewrite H in Hr. inversion Hr; subst. discriminate Hrn.
  - intros [Hrun Hnone]. apply select_only.
    + apply all_parses_spec. split; [exact Hrun | reflexivity].
    + intros d Hd. apply all_parses_spec in Hd.
      pose proof (Hnone d Hd) as Hn. destruct Hd as [_ Hts].
      destruct d; try discriminate Hn. simpl in Hts. now subst.
Qed.

End Choice.

(** ** What a token can be read as *)

Lemma Keyword_eqb_eq (a b : Keyword) : Keyword_eqb a b = true -> a = b.
Proof.
  destruct a as [[]|[]], b as [[]|[]]; simpl; intros H;
    try reflexivity; discriminate H.
Qed.

Lemma Keyword_eqb_refl (a : Keyword) : Keyword_eqb a a = true.
Proof. destruct a as [[]|[]]; reflexivity. Qed.

Section Readings.

Variable L : Locale.

Lemma run_cons (f : Token -> bool) (l : list Token) :
  run f l = true ->
  exists x l', l = x :: l' /\ f x = true /\ forallb f l' = true.
Proof.
  unfold run. destruct l as [|x l']; simpl; [discriminate|].
  intros H. apply andb_true_iff in H. destruct H. eauto.
Qed.

Lemma run_forallb (f : Token -> bool) (l : list Token) :
  run f l = true -> forallb f l = true.
Proof. unfold run. intros H. apply andb_true_iff in H. tauto. Qed.

Lemma run_app (f : Token -> bool) (l l' : list Token) :
  run f l = true -> forallb f l' = true -> run f (l ++ l') = true.
Proof.
  intros H H'. destruct (run_cons _ _ H) as (x & r & -> & Hx & Hr).
  unfold run. simpl. rewrite Hx, forallb_app, Hr, H'. reflexivity.
Qed.

(** A token reads as one keyword at most. *)
Lemma is_kw_functional (k k' : Keyword) (t : Token) :
  is_kw L k t = true -> is_kw L k' t = true -> k = k'.
Proof.
  unfold is_kw, reads_as, readings. destruct (kind_is_text t); simpl;
    [|discriminate].
  destruct (specializeKeyword L (tk_text t)) as [s|].
  - simpl. rewrite !orb_false_r. intros H H'.
    apply Keyword_eqb_eq in H, H'. congruence.
  - destruct (extendKeyword L (tk_text t)) as [e|]; simpl;
      [|discriminate].
    rewrite !orb_false_r. intros H H'.
    apply Keyword_eqb_eq in H, H'. congruence.
Qed.

(** [@external extend] keeps the [Text] reading, [@external specialize]
    does not. *)
Lemma extended_is_text (k : Extended) (t : Token) :
  is_kw L k t = true -> is_text L t = true.
Proof.
  unfold is_kw, is_text, reads_as, readings. destruct (kind_is_text t); simpl;
    [|discriminate].
  destruct (specializeKeyword L (tk_text t)) as [s|]; simpl;
    [discriminate|].
  destruct (extendKeyword L (tk_text t)) as [e|]; simpl; auto.
Qed.

Lemma specialized_is_not_text (k : Specialized) (t : Token) :
  is_kw L k t = true -> is_text L t = false.
Proof.
  unfold is_kw, is_text, reads_as, readings. destruct (kind_is_text t); simpl;
    [|discriminate].
  destruct (specializeKeyword L (tk_text t)) as [s|]; simpl;
    [reflexivity|].
  destruct (extendKeyword L (tk_text t)) as [e|]; simpl; discriminate.
Qed.

Lemma string_is_not_text (t : Token) :
  is_string t = true -> is_text L t = false.
Proof.
  unfold is_string, is_text, kind_is_text.
  destruct (tk_kind t); simpl; auto; discriminate.
Qed.

Lemma string_is_no_keyword (k : Keyword) (t : Token) :
  is_string t = true -> is_kw L k t = false.
Proof.
  unfold is_string, is_kw, kind_is_text.
  destruct (tk_kind t); simpl; auto; discriminate.
Qed.

Lemma op_is_not_text (t : Token) : is_op t = true -> is_text L t = false.
Proof.
  unfold is_op, is_text, kind_is_text.
  destruct (tk_kind t); simpl; auto; discriminate.
Qed.

Lemma op_is_no_keyword (k : Keyword) (t : Token) :
  is_op t = true -> is_kw L k t = false.
Proof.
  unfold is_op, is_kw, kind_is_text.
  destruct (tk_kind t); simpl; auto; discriminate.
Qed.

(** Arguments made of [String] tokens only are those tokens, one by one. *)
Lemma string_arguments (args : list Arg) :
  forallb (wf_arg L) args = true ->
  forallb is_string (concat (map arg_tokens args)) = true ->
  args = map ArgString (concat (map arg_tokens args)).
Proof.
  induction args as [|a r IH]; simpl; [reflexivity|].
  intros Hw Hs. apply andb_true_iff in Hw. destruct Hw as [Ha Hr].
  rewrite forallb_app in Hs. apply andb_true_iff in Hs.
  destruct Hs as [Hsa Hsr]. destruct a as [t|t|[n ats i]]; simpl in *.
  - f_equal. auto.
  - apply andb_true_iff in Hsa. destruct Hsa as [Hs _].
    apply string_is_not_text in Hs. congruence.
  - apply andb_true_iff in Hsa. destruct Hsa as [Hs _].
    apply string_is_not_text in Hs. unfold wf_access in Ha. simpl in Ha.
    rewrite Hs in Ha. discriminate Ha.
Qed.

(** A [print] keyword followed by [String] tokens has one derivation. *)
Lemma print_strings_derivation (t : Token) (strs : list Token) (d : Command) :
  is_kw L print t = true ->
  strs <> [] -> forallb is_string strs = true ->
  Derives L d (t :: strs) ->
  d = Print [t] (map ArgString strs).
Proof.
  intros Ht Hne Hs [Hw Hts].
  destruct strs as [|s strs']; [congruence|]. clear Hne.
  simpl in Hs. apply andb_true_iff in Hs. destruct Hs as [Hs Hs'].
  assert (Hhead : forall k l rest,
             run (is_kw L k) l = true -> l ++ rest = t :: s :: strs' ->
             k = print /\ l = [t] /\ rest = s :: strs').
  { intros k l rest Hl Heq. destruct (run_cons _ _ Hl) as (x & l' & -> & Hx & Hl').
    simpl in Heq. inversion Heq; subst x.
    split; [apply (is_kw_functional _ _ _ Hx Ht)|].
    destruct l' as [|y l'']; [auto|]. simpl in *. inversion Heq; subst y.
    rewrite (string_is_no_keyword k _ Hs) in Hl'. discriminate Hl'. }
  assert (Hname : forall k l rest,
             run (is_kw L k) l = true -> l ++ rest = s :: strs' -> False).
  { intros k l rest Hl Heq. destruct (run_cons _ _ Hl) as (x & l' & -> & Hx & _).
    simpl in Heq. inversion Heq; subst x.
    rewrite (string_is_no_keyword k _ Hs) in Hx. discriminate Hx. }
  destruct d as [n iss v|n iss f m|n iss asks args|kws|kws args|kws v
                 |[kws v|kws v|kws v]|kws o|kws vals tos tg|kws vals frs tg|ts];
    simpl in Hw, Hts;
    repeat match goal with
           | H : _ && _ = true |- _ => apply andb_true_iff in H; destruct H
           end.
  - inversion Hts; subst. exfalso.
    match goal with Hi : run (is_kw L (Ex is_)) _ = true |- _ =>
      eapply (Hname _ _ _ Hi); eassumption end.
  - inversion Hts; subst. exfalso.
    match goal with Hi : run (is_kw L (Ex is_)) _ = true |- _ =>
      eapply (Hname _ _ _ Hi); eassumption end.
  - inversion Hts; subst. exfalso.
    match goal with Hi : run (is_kw L (Ex is_)) _ = true |- _ =>
      eapply (Hname _ _ _ Hi); eassumption end.
  - rewrite <- (app_nil_r kws) in Hts.
    destruct (Hhead _ _ _ Hw Hts) as (_ & _ & Hnil). discriminate Hnil.
  - match goal with H : run _ kws = true |- _ =>
      destruct (Hhead _ _ _ H Hts) as (_ & -> & Hargs) end.
    f_equal. rewrite <- Hargs. apply string_arguments; [assumption|].
    rewrite Hargs. simpl. now rewrite Hs, Hs'.
  - match goal with H : run _ kws = true |- _ =>
      destruct (Hhead _ _ _ H Hts) as (Hk & _) end. discriminate Hk.
  - match goal with H : run _ kws = true |- _ =>
      destruct (Hhead _ _ _ H Hts) as (Hk & _) end. discriminate Hk.
  - match goal with H : run _ kws = true |- _ =>
      destruct (Hhead _ _ _ H Hts) as (Hk & _) end. discriminate Hk.
  - match goal with H : run _ kws = true |- _ =>
      destruct (Hhead _ _ _ H Hts) as (Hk & _) end. discriminate Hk.
  - match goal with H : run _ kws = true |- _ =>
      destruct (Hhead _ _ _ H Hts) as (Hk & _) end. discriminate Hk.
  - match goal with H : run _ kws = true |- _ =>
      destruct (Hhead _ _ _ H Hts) as (Hk & _) end. discriminate Hk.
  - match goal with H : run _ kws = true |- _ =>
      destruct (Hhead _ _ _ H Hts) as (Hk & _) end. discriminate Hk.
  - exfalso. subst ts. unfold run in Hw. simpl in Hw.
    rewrite (string_is_not_text _ Hs), !andb_false_r in Hw. discriminate Hw.
Qed.

Lemma wf_string_arguments (strs : list Token) :
  forallb (wf_arg L) (map ArgString strs) = forallb is_string strs.
Proof. induction strs as [|s r IH]; simpl; congruence. Qed.

Lemma print_strings (t : Token) (strs : list Token) :
  is_kw L print t = true ->
  strs <> [] -> forallb is_string strs = true ->
  parse_statement L (t :: strs) = Some (Print [t] (map ArgString strs)).
Proof.
  intros Ht Hne Hs. apply select_only.
  - apply all_parses_spec. split.
    + simpl. unfold run. simpl. rewrite Ht. simpl.
      destruct strs as [|s r]; [congruence|]. simpl.
      simpl in Hs. apply andb_true_iff in Hs. destruct Hs as [Hs Hr].
      rewrite Hs. simpl. rewrite wf_string_arguments. exact Hr.
    + simpl. f_equal. rewrite map_map. simpl. apply concat_singletons.
  - intros d Hd. apply all_parses_spec in Hd.
    eapply print_strings_derivation; eauto.
Qed.

End Readings.

(** ** Changing the keyword runs of a derivation *)

Section Runs.

Variable L : Locale.
Variable g : RunMap.
Hypothesis g_keeps : keeps_runs L g.











End Runs.

Lemma stutter_keeps (L : Locale) (n : nat) : keeps_runs L (stutter n).
Proof.
  intros k l H. unfold stutter.
  destruct (run_cons _ _ H) as (x & r & -> & Hx & Hr). unfold run. simpl.
  rewrite Hx. simpl. rewrite forallb_app. apply andb_true_iff. split.
  - clear Hr H. induction n as [|m IH]; simpl; [reflexivity|].
    rewrite Hx. exact IH.
  - clear H. induction r as [|y r IH]; simpl; [reflexivity|].
    simpl in Hr. apply andb_true_iff in Hr. destruct Hr as [Hy Hr].
    rewrite Hy, forallb_app, (IH Hr), andb_true_r. simpl.
    clear IH Hr. induction n as [|m IH]; simpl; [reflexivity|].
    rewrite Hy. exact IH.
Qed.

(** ** Which named rules can derive the same statement *)

Lemma forallb_imp {A} (f h : A -> bool) (l : list A) :
  (forall x, f x = true -> h x = true) ->
  forallb f l = true -> forallb h l = true.
Proof.
  intros Himp. induction l as [|x r IH]; simpl; [reflexivity|].
  intros H. apply andb_true_iff in H. destruct H as [Hx Hr].
  rewrite (Himp x Hx), (IH Hr). reflexivity.
Qed.

Section Unique.

Variable L : Locale.

Lemma kw_is_no_op k t : is_kw L k t = true -> is_op t = false.
Proof.
  unfold is_kw, is_op, kind_is_text. destruct (tk_kind t); simpl;
    auto; discriminate.
Qed.

Lemma text_is_no_op t : is_text L t = true -> is_op t = false.
Proof.
  unfold is_text, is_op, kind_is_text. destruct (tk_kind t); simpl;
    auto; discriminate.
Qed.

Lemma text_quiet t : is_text L t = true -> quiet L t = true.
Proof.
  intros H. unfold quiet. rewrite (@text_is_no_op t H). simpl.
  destruct (is_kw L ask t) eqn:Ha; [|reflexivity].
  apply specialized_is_not_text in Ha. congruence.
Qed.

Lemma kw_quiet k t : is_kw L k t = true -> k <> Sp ask -> quiet L t = true.
Proof.
  intros H Hk. unfold quiet. rewrite (@kw_is_no_op k t H). simpl.
  destruct (is_kw L ask t) eqn:Ha; [|reflexivity].
  exfalso. apply Hk. apply (@is_kw_functional L k (Sp ask) t H Ha).
Qed.

Lemma string_quiet t : is_string t = true -> quiet L t = true.
Proof.
  intros H. unfold quiet. rewrite (@string_is_no_keyword L (Sp ask) t H).
  unfold is_string, is_op in *. destruct (tk_kind t); auto; discriminate.
Qed.

Lemma texts_quiet l : forallb (is_text L) l = true -> forallb (quiet L) l = true.
Proof. apply forallb_imp. apply text_quiet. Qed.

Lemma kws_quiet k l :
  k <> Sp ask -> forallb (is_kw L k) l = true -> forallb (quiet L) l = true.
Proof. intros Hk. apply forallb_imp. intros x Hx. apply (@kw_quiet k x Hx Hk). Qed.

Lemma access_quiet l :
  wf_access L l = true -> forallb (quiet L) (access_tokens l) = true.
Proof.
  destruct l as [n ats i]. unfold wf_access, access_tokens. simpl. intros H.
  apply andb_true_iff in H. destruct H as [H Hi].
  apply andb_true_iff in H. destruct H as [Hn Ha].
  rewrite (@text_quiet n Hn), forallb_app. simpl.
  apply run_forallb in Ha.
  rewrite (@kws_quiet (Sp at_) ats); [|discriminate|exact Ha]. simpl.
  destruct i as [rs|t]; simpl in *.
  - apply run_forallb in Hi. apply (@kws_quiet (Sp random)); [discriminate|exact Hi].
  - rewrite (@text_quiet t Hi). reflexivity.
Qed.

Lemma value_quiet v :
  wf_value L v = true -> forallb (quiet L) (value_tokens v) = true.
Proof.
  destruct v as [ts|l]; simpl; intros H.
  - apply texts_quiet. now apply run_forallb.
  - now apply access_quiet.
Qed.

Lemma args_quiet args :
  forallb (wf_arg L) args = true ->
  forallb (quiet L) (concat (map arg_tokens args)) = true.
Proof.
  induction args as [|a r IH]; simpl; [reflexivity|]. intros H.
  apply andb_true_iff in H. destruct H as [Ha Hr].
  rewrite forallb_app, (IH Hr), andb_true_r.
  destruct a as [t|t|l]; simpl in *.
  - now rewrite (@string_quiet t Ha).
  - now rewrite (@text_quiet t Ha).
  - now apply access_quiet.
Qed.

Lemma quiet_has_no_op l :
  forallb (quiet L) l = true -> existsb is_op l = false.
Proof.
  induction l as [|x r IH]; simpl; [reflexivity|]. intros H.
  apply andb_true_iff in H. destruct H as [Hx Hr].
  unfold quiet in Hx. apply andb_true_iff in Hx. destruct Hx as [Hx _].
  apply negb_true_iff in Hx. rewrite Hx, (IH Hr). reflexivity.
Qed.

Lemma quiet_has_no_ask l :
  forallb (quiet L) l = true -> existsb (is_kw L ask) l = false.
Proof.
  induction l as [|x r IH]; simpl; [reflexivity|]. intros H.
  apply andb_true_iff in H. destruct H as [Hx Hr].
  unfold quiet in Hx. apply andb_true_iff in Hx. destruct Hx as [_ Hx].
  apply negb_true_iff in Hx. rewrite Hx, (IH Hr). reflexivity.
Qed.

Lemma kws_have_no_op k l :
  forallb (is_kw L k) l = true -> existsb is_op l = false.
Proof.
  induction l as [|x r IH]; simpl; [reflexivity|]. intros H.
  apply andb_true_iff in H. destruct H as [Hx Hr].
  rewrite (@kw_is_no_op k x Hx), (IH Hr). reflexivity.
Qed.

(** Among the rules that start with a name, the tokens tell the rule:
    [AssignList] alone has a separator, [Ask] alone an [ask]. *)
Lemma text_headed_tag c :
  wf_command L c = true -> text_headed c = true ->
  tag c = if existsb is_op (command_tokens c) then TAssignList
          else if existsb (is_kw L ask) (command_tokens c) then TAsk
               else TAssign.
Proof.
  destruct c as [n iss v|n iss f m|n iss asks args| | | | | | | |];
    try discriminate; simpl; intros H _;
    repeat match goal with
           | H : _ && _ = true |- _ => apply andb_true_iff in H; destruct H
           end.
  - assert (Hq : forallb (quiet L) (n :: iss ++ value_tokens v) = true).
    { simpl. rewrite (@text_quiet n H), forallb_app, (@value_quiet v H0).
      rewrite (@kws_quiet (Ex is_) iss);
        [reflexivity | discriminate | now apply run_forallb]. }
    pose proof (@quiet_has_no_op _ Hq) as Ho.
    pose proof (@quiet_has_no_ask _ Hq) as Ha.
    simpl in Ho, Ha. now rewrite Ho, Ha.
  - rewrite (@text_is_no_op n H). simpl. rewrite !existsb_app.
    destruct m as [|[o ts] m']; [discriminate|]. simpl in *.
    repeat match goal with
           | H : _ && _ = true |- _ => apply andb_true_iff in H; destruct H
           end.
    unfold wf_item in *. simpl in *.
    repeat match goal with
           | H : _ && _ = true |- _ => apply andb_true_iff in H; destruct H
           end.
    match goal with Ho : is_op o = true |- _ => rewrite Ho end.
    simpl. rewrite !orb_true_r. reflexivity.
  - assert (Hq : forallb (quiet L) (n :: iss ++ concat (map arg_tokens args))
                 = true).
    { simpl. rewrite (@text_quiet n H), forallb_app, (@args_quiet args H1).
      rewrite (kws_quiet (k := is_) iss);
        [reflexivity | discriminate | now apply run_forallb]. }
    pose proof (quiet_has_no_op _ Hq) as Ho.
    pose proof (quiet_has_no_ask _ Hq) as Ha.
    simpl in Ho, Ha. rewrite existsb_app in Ho, Ha.
    apply orb_false_iff in Ho, Ha. destruct Ho as [Ho1 [Ho2 Ho3]%orb_false_iff].
    destruct Ha as [Ha1 [Ha2 Ha3]%orb_false_iff].
    rewrite !existsb_app, Ho1, Ho2, Ho3, Ha1, Ha2, Ha3.
    match goal with Hasks : run (is_kw L (Sp ask)) asks = true |- _ =>
      rewrite (@kws_have_no_op (Sp ask) asks) by (now apply run_forallb);
      destruct (@run_cons (is_kw L (Sp ask)) asks Hasks)
        as (x & r & -> & Hx & _)
    end.
    simpl. rewrite Hx. reflexivity.
Qed.

(** A rule that starts with a keyword is told by that keyword. *)
Lemma kw_headed_tag c :
  wf_command L c = true -> named c = true -> text_headed c = false ->
  exists k t rest,
    command_tokens c = t :: rest /\ is_kw L k t = true /\ tag c = head_tag k.
Proof.
  destruct c as [n iss v|n iss f m|n iss asks args|kws|kws args|kws v
                 |[kws v|kws v|kws v]|kws o|kws vals tos tg|kws vals frs tg|ts];
    try discriminate; simpl; intros H _ _;
    repeat match goal with
           | H : _ && _ = true |- _ => apply andb_true_iff in H; destruct H
           end;
    match goal with
    | Hr : run (is_kw L ?k) kws = true |- _ =>
        destruct (@run_cons _ _ Hr) as (x & r & -> & Hx & _);
        exists k, x; simpl; eexists; split; [reflexivity|];
        split; [exact Hx | reflexivity]
    end.
Qed.

(** Two named derivations of one statement that both start with a name, or
    both with a keyword, are built by the same rule. *)
Lemma named_tag_unique c d ts :
  Derives L c ts -> Derives L d ts ->
  named c = true -> named d = true ->
  text_headed c = text_headed d ->
  tag c = tag d.
Proof.
  intros [Hwc Hc] [Hwd Hd] Hnc Hnd Hh.
  destruct (text_headed c) eqn:Hhc.
  - rewrite (@text_headed_tag c Hwc Hhc), (@text_headed_tag d Hwd (eq_sym Hh)).
    rewrite Hc, Hd. reflexivity.
  - destruct (@kw_headed_tag c Hwc Hnc Hhc) as (k & t & r & Ht & Hk & ->).
    destruct (@kw_headed_tag d Hwd Hnd (eq_sym Hh)) as (k' & t' & r' & Ht' & Hk' & ->).
    rewrite Hc in Ht. rewrite Hd in Ht'. rewrite Ht in Ht'.
    inversion Ht'; subst. f_equal. apply (@is_kw_functional L k k' t' Hk Hk').
Qed.




End Unique.

(** * The lexer: coverage, separators, strings and symbols *)

Lemma symbol_comma (k : Comma) : symbol (comma_code k) = false.
Proof. destruct k; reflexivity. Qed.







(** C7: a [String] token is a run between two double quotes or two single
    quotes whose contents hold no line feed and no occurrence of that quote
    (and no backslash either); the two styles are independent: whatever
    holds none of these three characters, the other quote included, may
    stand between the quotes. *)
Theorem string_token_contents :
  (forall input ts t,
      lex input = LexOk ts -> In t ts -> tk_kind t = String ->
      exists q body,
        (q = dquote \/ q = squote)
        /\ tk_text t = q :: body ++ [q]
        /\ ~ In lf body /\ ~ In q body /\ ~ In backslash body)
  /\ (forall q body rest,
        (q = dquote \/ q = squote) ->
        ~ In lf body -> ~ In q body -> ~ In backslash body ->
        next_token (q :: body ++ q :: rest)
        = Some (String, q :: body ++ [q], rest)).
Proof.
  split.
  - intros input ts t Hlex Hin Hk. apply lex_ok in Hlex.
    destruct Hlex as (_ & _ & Hshape & _).
    rewrite Forall_forall in Hshape. specialize (Hshape t Hin).
    rewrite Hk in Hshape. destruct Hshape as (q & body & Hq & Hw & Hbody).
    exists q, body. apply forallb_stringChar in Hbody.
    destruct Hbody as (Hb & Hl & Hqq). repeat split; auto.
    unfold is_quote in Hq. apply orb_true_iff in Hq.
    destruct Hq as [H|H]; apply N.eqb_eq in H; auto.
  - intros q body rest Hq Hl Hqq Hb. apply next_token_string.
    + destruct Hq as [-> | ->]; reflexivity.
    + apply forallb_stringChar. auto.
Qed.

Lemma string_token_contents_witness :
  next_token (dquote :: cps "it's" ++ dquote :: cps " x")
  = Some (String, dquote :: cps "it's" ++ [dquote], cps " x")
  /\ next_token (squote :: (cps "say " ++ dquote :: cps "hi" ++ [dquote])
                   ++ squote :: [])
     = Some (String,
             squote :: (cps "say " ++ dquote :: cps "hi" ++ [dquote])
               ++ [squote], [])
  /\ exists q body,
      (q = dquote \/ q = squote)
      /\ tk_text (mkToken String 6 10 (squote :: cps "hi" ++ [squote]))
         = q :: body ++ [q]
      /\ ~ In lf body /\ ~ In q body /\ ~ In backslash body.
Proof.
  destruct string_token_contents as [Hshape Hlex]. split; [|split].
  - apply Hlex; [now left | | |]; simpl; intros H;
      repeat (destruct H as [H|H]; [discriminate H|]); exact H.
  - apply Hlex; [now right | | |]; simpl; intros H;
      repeat (destruct H as [H|H]; [discriminate H|]); exact H.
  - apply (Hshape (cps "print 'hi'")
                  [mkToken Text 0 5 (cps "print"); mkToken space 5 6 [blank];
                   mkToken String 6 10 (squote :: cps "hi" ++ [squote])]).
    + reflexivity.
    + right. right. left. reflexivity.
    + reflexivity.
Defined.

(** C10: the characters of [symbol] are [Text] characters; a run of [Text]
    characters is taken whole as one [Text] token, so that [a+b.c] is one
    token; no two [Text] tokens follow each other; and a token that holds a
    symbol character is a [Text], a [String] or a [Comment]: the token
    kinds have no symbol kind. *)
Theorem symbols_are_text :
  (forall c, symbol c = true -> textChar c = true)
  /\ (forall run rest,
        run <> [] -> forallb textChar run = true ->
        match rest with [] => True | c :: _ => textChar c = false end ->
        next_token (run ++ rest) = Some (Text, run, rest))
  /\ lex (cps "a+b.c") = LexOk [mkToken Text 0 5 (cps "a+b.c")]
  /\ (forall input ts,
        lex input = LexOk ts ->
        text_maximal ts
        /\ forall t c, In t ts -> In c (tk_text t) -> symbol c = true ->
                       tk_kind t = Text \/ tk_kind t = String
                       \/ tk_kind t = Comment).
Proof.
  split; [|split; [|split]].
  - intros c H. unfold textChar. rewrite H. apply orb_true_iff. left.
    apply orb_true_r.
  - apply next_token_text_run.
  - reflexivity.
  - intros input ts Hlex. apply lex_ok in Hlex.
    destruct Hlex as (_ & _ & Hshape & Hmax). split; [exact Hmax|].
    intros t c Hin Hc Hs. rewrite Forall_forall in Hshape.
    specialize (Hshape t Hin).
    destruct (tk_kind t) as [| | | | |k]; simpl in Hshape; auto;
      exfalso; rewrite Hshape in Hc; destruct Hc as [Hc|[]]; subst c.
    + discriminate Hs.
    + discriminate Hs.
    + rewrite symbol_comma in Hs. discriminate Hs.
Qed.

Lemma symbols_are_text_witness :
  textChar 43 = true
  /\ next_token (cps "x_1-y" ++ cps " z") = Some (Text, cps "x_1-y", cps " z")
  /\ text_maximal [mkToken Text 0 3 (cps "a-b"); mkToken space 3 4 [blank];
                   mkToken Text 4 5 (cps "c")].
Proof.
  destruct symbols_are_text as (Hsym & Hrun & _ & Hlex). split; [|split].
  - apply Hsym. reflexivity.
  - apply Hrun; [discriminate | reflexivity | reflexivity].
  - apply (Hlex (cps "a-b c")). reflexivity.
Defined.

(** * The parser: precedence and fallback *)






(** * The parser: list literals and list access *)

(** C3: whichever of the four commas stands at each of the two separator
    places of [a is 1,2,3], the same one twice or two different ones, the
    statement parses to an [AssignList] of the variable [a] whose three
    elements are [1], [2] and [3]. *)
Theorem separators_are_interchangeable (k1 k2 : Comma) :
  let input :=
    cps "a is 1" ++ [comma_code k1] ++ cps "2" ++ [comma_code k2] ++ cps "3" in
  let c :=
    AssignList (mkToken Text 0 1 (cps "a")) [mkToken Text 2 4 (cps "is")]
               [mkToken Text 5 6 (cps "1")]
               [(mkToken (Op k1) 6 7 [comma_code k1],
                 [mkToken Text 7 8 (cps "2")]);
                (mkToken (Op k2) 8 9 [comma_code k2],
                 [mkToken Text 9 10 (cps "3")])] in
  parse_program en input = Some [Some c]
  /\ tag c = TAssignList
  /\ length (list_elements c) = 3
  /\ map (map tk_text) (list_elements c) = [[cps "1"]; [cps "2"]; [cps "3"]].
Proof.
  destruct k1, k2; vm_compute; repeat split; reflexivity.
Qed.

(** C5 as stated fails: [ListAccess] is no alternative of [Command], and
    standing alone [scores at random] and [scores at 2] are derived by no
    rule. *)
Lemma list_access_is_no_statement :
  parse_program en (cps "scores at random") = Some [None]
  /\ parse_program en (cps "scores at 2") = Some [None]
  /\ (forall c, ~ Derives en c [mkToken Text 0 6 (cps "scores");
                                mkToken Text 7 9 (cps "at");
                                mkToken Text 10 16 (cps "random")])
  /\ (forall c, ~ Derives en c [mkToken Text 0 6 (cps "scores");
                                mkToken Text 7 9 (cps "at");
                                mkToken Text 10 11 (cps "2")]).
Proof.
  split; [reflexivity|]. split; [reflexivity|].
  split; intros c Hc; apply all_parses_spec in Hc; exact Hc.
Qed.

(** C5, amended: the rule [ListAccess] derives [scores at random] and
    [scores at 2], each in one way, as an access to the variable [scores];
    the two trees differ only in the index, the run of [random] in one and
    the [Text] token [2] in the other; and so they parse where a rule takes
    a [ListAccess], as behind [print]. *)
Theorem list_access_index_forms :
  let scores := mkToken Text 0 6 (cps "scores") in
  let at_kw := mkToken Text 7 9 (cps "at") in
  let by_random := mkToken Text 10 16 (cps "random") in
  let by_two := mkToken Text 10 11 (cps "2") in
  listAccess en [scores; at_kw; by_random]
  = [(mkListAccess scores [at_kw] (Random [by_random]), [])]
  /\ listAccess en [scores; at_kw; by_two]
     = [(mkListAccess scores [at_kw] (IndexText by_two), [])]
  /\ parse_program en (cps "print scores at random")
     = Some [Some (Print [mkToken Text 0 5 (cps "print")]
                     [ArgListAccess
                        (mkListAccess (mkToken Text 6 12 (cps "scores"))
                           [mkToken Text 13 15 (cps "at")]
                           (Random [mkToken Text 16 22 (cps "random")]))])]
  /\ parse_program en (cps "print scores at 2")
     = Some [Some (Print [mkToken Text 0 5 (cps "print")]
                     [ArgListAccess
                        (mkListAccess (mkToken Text 6 12 (cps "scores"))
                           [mkToken Text 13 15 (cps "at")]
                           (IndexText (mkToken Text 16 17 (cps "2"))))])].
Proof. vm_compute. repeat split; reflexivity. Qed.

(** * The parser: keywords of a locale *)

(** The statement made of a word [w] that reads as [print] and the string
    [hi] between double quotes. *)
Lemma print_hi (L : Locale) (w : Lexeme) :
  w <> [] -> forallb textChar w = true ->
  reads_as L (AsKeyword print) w = true ->
  parse_program L (w ++ cps " " ++ dquote :: cps "hi" ++ [dquote])
  = Some [Some (Print [mkToken Text 0 (length w) w]
                      [ArgString (mkToken String (length w + 1)
                                          (length w + 1 + 4)
                                          (dquote :: cps "hi" ++ [dquote]))])].
Proof.
  intros Hne Hw Hr. unfold parse_program.
  rewrite lex_word; [|assumption|assumption|reflexivity].
  cbn. f_equal. f_equal.
  apply (@print_strings L (mkToken Text 0 (length w) w)
           [mkToken String (length w + 1) (length w + 1 + 4)
                    (dquote :: cps "hi" ++ [dquote])]).
  - unfold is_kw. simpl. exact Hr.
  - discriminate.
  - reflexivity.
Qed.

(** C8: in two locales, each with its own spelling of [print], the
    statement made of that spelling and the string [hi] parses to a [Print]
    node with one argument in both; and so does, argument for argument, any
    statement made of a [print] keyword and [String] tokens. *)
Theorem print_shape_is_locale_independent
        (L1 L2 : Locale) (w1 w2 : Lexeme) :
  w1 <> [] -> forallb textChar w1 = true ->
  reads_as L1 (AsKeyword print) w1 = true ->
  w2 <> [] -> forallb textChar w2 = true ->
  reads_as L2 (AsKeyword print) w2 = true ->
  (exists c1 c2,
      parse_program L1 (w1 ++ cps " " ++ dquote :: cps "hi" ++ [dquote])
      = Some [Some c1]
      /\ parse_program L2 (w2 ++ cps " " ++ dquote :: cps "hi" ++ [dquote])
         = Some [Some c2]
      /\ tag c1 = TPrint /\ tag c2 = TPrint
      /\ length (arguments c1) = 1 /\ length (arguments c2) = 1
      /\ map arg_tokens (arguments c1) <> []
      /\ map (fun a => map tk_text (arg_tokens a)) (arguments c1)
         = map (fun a => map tk_text (arg_tokens a)) (arguments c2))
  /\ (forall t1 t2 strs1 strs2,
         tk_kind t1 = Text -> tk_text t1 = w1 ->
         tk_kind t2 = Text -> tk_text t2 = w2 ->
         strs1 <> [] -> forallb is_string strs1 = true ->
         forallb is_string strs2 = true ->
         length strs1 = length strs2 ->
         exists c1 c2,
           parse_statement L1 (t1 :: strs1) = Some c1
           /\ parse_statement L2 (t2 :: strs2) = Some c2
           /\ tag c1 = TPrint /\ tag c2 = TPrint
           /\ length (arguments c1) = length (arguments c2)).
Proof.
  intros Hn1 Hw1 Hr1 Hn2 Hw2 Hr2. split.
  - eexists. eexists.
    split; [apply (@print_hi L1 w1 Hn1 Hw1 Hr1)|].
    split; [apply (@print_hi L2 w2 Hn2 Hw2 Hr2)|].
    simpl. repeat split; try reflexivity. discriminate.
  - intros t1 t2 strs1 strs2 Hk1 Ht1 Hk2 Ht2 Hne Hs1 Hs2 Hlen.
    exists (Print [t1] (map ArgString strs1)),
           (Print [t2] (map ArgString strs2)).
    assert (Hne2 : strs2 <> []).
    { destruct strs1, strs2; simpl in Hlen; congruence. }
    split; [|split].
    + apply print_strings; auto. unfold is_kw, kind_is_text.
      rewrite Hk1, Ht1. exact Hr1.
    + apply print_strings; auto. unfold is_kw, kind_is_text.
      rewrite Hk2, Ht2. exact Hr2.
    + simpl. rewrite !length_map. auto.
Qed.

Lemma print_shape_is_locale_independent_witness :
  exists c1 c2,
    parse_program en (cps "print" ++ cps " " ++ dquote :: cps "hi" ++ [dquote])
    = Some [Some c1]
    /\ parse_program
         (mkLocale (fun _ => None) (lookup [(cps "imprimir", print)]))
         (cps "imprimir" ++ cps " " ++ dquote :: cps "hi" ++ [dquote])
       = Some [Some c2]
    /\ tag c1 = TPrint /\ tag c2 = TPrint
    /\ length (arguments c1) = 1 /\ length (arguments c2) = 1
    /\ map arg_tokens (arguments c1) <> []
    /\ map (fun a => map tk_text (arg_tokens a)) (arguments c1)
       = map (fun a => map tk_text (arg_tokens a)) (arguments c2).
Proof.
  apply (@print_shape_is_locale_independent
           en (mkLocale (fun _ => None) (lookup [(cps "imprimir", print)]))
           (cps "print") (cps "imprimir"));
    solve [discriminate | reflexivity].
Defined.



(** * Parsing commutes with relocating and respelling tokens *)

Lemma flat_map_ext_in {A B} (h h' : A -> list B) (l : list A) :
  (forall a, In a l -> h a = h' a) -> flat_map h l = flat_map h' l.
Proof.
  induction l as [|x r IH]; simpl; intros H; [reflexivity|].
  rewrite (H x (or_introl eq_refl)), IH; auto.
Qed.

Lemma flat_map_map {A B C} (h : A -> B) (k : B -> list C) (l : list A) :
  flat_map k (map h l) = flat_map (fun a => k (h a)) l.
Proof. induction l as [|x r IH]; simpl; congruence. Qed.

Lemma map_flat_map {A B C} (h : B -> C) (k : A -> list B) (l : list A) :
  map h (flat_map k l) = flat_map (fun a => map h (k a)) l.
Proof.
  induction l as [|x r IH]; simpl; [reflexivity|].
  rewrite map_app, IH. reflexivity.
Qed.

Section Naturality.

Variable P : Token -> Prop.
Variable f : Token -> Token.

Lemma satisfy_natural (p1 p2 : Token -> bool) :
  (forall t, P t -> p2 (f t) = p1 t) ->
  Natural P f f (satisfy p1) (satisfy p2).
Proof.
  intros Hp ts Hts. destruct ts as [|t r]; simpl.
  - split; [reflexivity | intros a r' []].
  - inversion Hts as [|? ? Ht Hr]; subst. rewrite (Hp t Ht).
    destruct (p1 t); simpl; split; try reflexivity.
    + intros a r' [H | []]. inversion H; subst. exact Hr.
    + intros a r' [].
Qed.

Lemma pmap_natural {A B} (g : A -> B) (m : A -> A) (m' : B -> B) p1 p2 :
  Natural P f m p1 p2 ->
  (forall a, g (m a) = m' (g a)) ->
  Natural P f m' (pmap g p1) (pmap g p2).
Proof.
  intros Hn Hg ts Hts. destruct (Hn ts Hts) as [Heq Hrest]. split.
  - unfold pmap. rewrite Heq, !map_map. apply map_ext.
    intros [a r]. simpl. now rewrite Hg.
  - intros b r Hin. apply in_pmap in Hin. destruct Hin as (a & _ & Hin).
    eapply Hrest; eauto.
Qed.

Lemma seq_natural {A B} (ma : A -> A) (mb : B -> B) p1 p2 q1 q2 :
  Natural P f ma p1 p2 ->
  Natural P f mb q1 q2 ->
  Natural P f (fun x => (ma (fst x), mb (snd x))) (seq p1 q1) (seq p2 q2).
Proof.
  intros Hp Hq ts Hts. destruct (Hp ts Hts) as [Heq Hrest]. split.
  - unfold seq. rewrite Heq, flat_map_map, map_flat_map.
    apply flat_map_ext_in. intros [a r] Hin. simpl.
    destruct (Hq r (Hrest a r Hin)) as [Heq' _].
    rewrite Heq', !map_map. reflexivity.
  - intros [a b] r Hin. unfold seq in Hin. apply in_flat_map in Hin.
    destruct Hin as ([a' m] & Hin & Hin'). apply in_map_iff in Hin'.
    destruct Hin' as ([b' r'] & Heq' & Hin'). simpl in *.
    inversion Heq'; subst.
    destruct (Hq m (Hrest a m Hin)) as [_ Hrest']. eapply Hrest'; eauto.
Qed.

Lemma alt_natural {A} (m : A -> A) p1 p2 q1 q2 :
  Natural P f m p1 p2 ->
  Natural P f m q1 q2 ->
  Natural P f m (alt p1 q1) (alt p2 q2).
Proof.
  intros Hp Hq ts Hts. destruct (Hp ts Hts) as [Heq Hrest].
  destruct (Hq ts Hts) as [Heq' Hrest']. split.
  - unfold alt. now rewrite Heq, Heq', map_app.
  - intros a r Hin. apply in_app_or in Hin. destruct Hin; eauto.
Qed.

Lemma opt_natural {A} (m : A -> A) p1 p2 :
  Natural P f m p1 p2 ->
  Natural P f (option_map m) (opt p1) (opt p2).
Proof.
  intros Hp ts Hts.
  destruct (@pmap_natural _ _ Some m (option_map m) p1 p2 Hp
              (fun a => eq_refl) ts Hts) as [Heq Hrest].
  split.
  - unfold opt. rewrite Heq, map_app. reflexivity.
  - intros a r Hin. apply in_app_or in Hin. destruct Hin as [Hin | [H | []]].
    + eapply Hrest; eauto.
    + inversion H; subst. exact Hts.
Qed.

Lemma many1_natural {A} (m : A -> A) p1 p2 :
  Natural P f m p1 p2 ->
  forall fuel ts, Forall P ts ->
    many1 fuel p2 (map f ts)
    = map (fun lr => (map m (fst lr), map f (snd lr))) (many1 fuel p1 ts)
    /\ (forall l r, In (l, r) (many1 fuel p1 ts) -> Forall P r).
Proof.
  intros Hp. induction fuel as [|n IH]; intros ts Hts; simpl.
  - split; [reflexivity | intros l r []].
  - destruct (Hp ts Hts) as [Heq Hrest]. split.
    + rewrite Heq, flat_map_map, map_flat_map.
      apply flat_map_ext_in. intros [a r] Hin. simpl.
      destruct (IH r (Hrest a r Hin)) as [Heq' _].
      rewrite Heq', !map_map. reflexivity.
    + intros l r Hin. apply in_flat_map in Hin.
      destruct Hin as ([a m'] & Hin & Hin'). simpl in Hin'.
      destruct Hin' as [H | Hin'].
      * inversion H; subst. eapply Hrest; eauto.
      * apply in_map_iff in Hin'. destruct Hin' as ([l' r'] & H & Hin').
        simpl in H. inversion H; subst.
        destruct (IH m' (Hrest a m' Hin)) as [_ Hrest']. eapply Hrest'; eauto.
Qed.

Lemma plus_natural {A} (m : A -> A) p1 p2 :
  Natural P f m p1 p2 ->
  Natural P f (map m) (plus p1) (plus p2).
Proof.
  intros Hp ts Hts. unfold plus. rewrite length_map.
  apply many1_natural; assumption.
Qed.

End Naturality.

Section RuleNaturality.

Variables L1 L2 : Locale.
Variable f : Token -> Token.

Let P := reads_alike L1 L2 f.

Lemma text_natural : Natural P f f (text L1) (text L2).
Proof. apply satisfy_natural. intros t Ht. apply Ht. Qed.

Lemma kw_natural k : Natural P f f (kw L1 k) (kw L2 k).
Proof. apply satisfy_natural. intros t Ht. apply Ht. Qed.

Lemma string_natural : Natural P f f string_lit string_lit.
Proof. apply satisfy_natural. intros t Ht. apply Ht. Qed.

Lemma op_natural : Natural P f f op op.
Proof. apply satisfy_natural. intros t Ht. apply Ht. Qed.

Lemma index_natural : Natural P f (index_map f) (index L1) (index L2).
Proof.
  unfold index. apply alt_natural.
  - eapply pmap_natural; [apply plus_natural, kw_natural | reflexivity].
  - eapply pmap_natural; [apply text_natural | reflexivity].
Qed.

Lemma listAccess_natural :
  Natural P f (access_map f) (listAccess L1) (listAccess L2).
Proof.
  unfold listAccess. eapply pmap_natural.
  - apply seq_natural; [apply seq_natural|].
    + apply text_natural.
    + apply plus_natural, kw_natural.
    + apply index_natural.
  - intros [[n ats] i]. reflexivity.
Qed.

Lemma arg_natural : Natural P f (arg_map f) (arg L1) (arg L2).
Proof.
  unfold arg. repeat apply alt_natural.
  - eapply pmap_natural; [apply string_natural | reflexivity].
  - eapply pmap_natural; [apply text_natural | reflexivity].
  - eapply pmap_natural; [apply listAccess_natural | reflexivity].
Qed.

Lemma operand_natural : Natural P f (operand_map f) (operand L1) (operand L2).
Proof.
  unfold operand. apply alt_natural.
  - eapply pmap_natural; [apply text_natural | reflexivity].
  - eapply pmap_natural; [apply listAccess_natural | reflexivity].
Qed.

Lemma value_natural :
  Natural P f (value_map f)
    (alt (pmap ValueTexts (plus (text L1))) (pmap ValueListAccess (listAccess L1)))
    (alt (pmap ValueTexts (plus (text L2))) (pmap ValueListAccess (listAccess L2))).
Proof.
  apply alt_natural.
  - eapply pmap_natural; [apply plus_natural, text_natural | reflexivity].
  - eapply pmap_natural; [apply listAccess_natural | reflexivity].
Qed.

Lemma notes_natural :
  Natural P f (value_map f)
    (alt (pmap ValueListAccess (listAccess L1)) (pmap ValueTexts (plus (text L1))))
    (alt (pmap ValueListAccess (listAccess L2)) (pmap ValueTexts (plus (text L2)))).
Proof.
  apply alt_natural.
  - eapply pmap_natural; [apply listAccess_natural | reflexivity].
  - eapply pmap_natural; [apply plus_natural, text_natural | reflexivity].
Qed.

Lemma item_natural :
  Natural P f (item_map f) (seq op (plus (text L1))) (seq op (plus (text L2))).
Proof.
  apply (@seq_natural P f _ _ f (map f));
    [apply op_natural | apply plus_natural, text_natural].
Qed.

Ltac natural_rule :=
  eapply pmap_natural;
  [ repeat first
      [ apply value_natural
      | apply notes_natural
      | apply (plus_natural item_natural)
      | apply seq_natural
      | apply plus_natural
      | apply opt_natural
      | apply text_natural
      | apply kw_natural
      | apply arg_natural
      | apply operand_natural ]
  | let x := fresh "x" in
    intros x; repeat (destruct x as [x ?]); reflexivity ].

Lemma turtle_natural :
  Natural P f (turtle_map f)
    (alt (alt (pmap (fun x => Forward (fst x) (snd x))
                    (seq (plus (kw L1 forward)) (operand L1)))
              (pmap (fun x => Turn (fst x) (snd x))
                    (seq (plus (kw L1 turn)) (operand L1))))
         (pmap (fun x => Color (fst x) (snd x))
               (seq (plus (kw L1 color)) (operand L1))))
    (alt (alt (pmap (fun x => Forward (fst x) (snd x))
                    (seq (plus (kw L2 forward)) (operand L2)))
              (pmap (fun x => Turn (fst x) (snd x))
                    (seq (plus (kw L2 turn)) (operand L2))))
         (pmap (fun x => Color (fst x) (snd x))
               (seq (plus (kw L2 color)) (operand L2)))).
Proof. repeat apply alt_natural; natural_rule. Qed.

Lemma command_natural : Natural P f (command_map f) (command L1) (command L2).
Proof.
  unfold command. repeat apply alt_natural.
  - unfold assignRule. natural_rule.
  - unfold assignListRule. natural_rule.
  - unfold askRule. natural_rule.
  - unfold clearRule. natural_rule.
  - unfold printRule. natural_rule.
  - unfold playRule. natural_rule.
  - unfold turtleRule. eapply pmap_natural; [apply turtle_natural|reflexivity].
  - unfold sleepRule. natural_rule.
  - unfold addRule. natural_rule.
  - unfold removeRule. natural_rule.
  - unfold errorInvalidRule. natural_rule.
Qed.

Lemma nonempty_map {A B} (h : A -> B) (l : list A) :
  nonempty (map h l) = nonempty l.
Proof. destruct l; reflexivity. Qed.

Lemma all_parses_natural ts :
  Forall P ts ->
  all_parses L2 (map f ts) = map (command_map f) (all_parses L1 ts).
Proof.
  intros Hts. unfold all_parses. destruct (command_natural Hts) as [-> _].
  induction (command L1 ts) as [|[c r] l IH]; simpl; [reflexivity|].
  rewrite nonempty_map. destruct (nonempty r); simpl; now rewrite IH.
Qed.

Lemma precedence_map c :
  dynamicPrecedence (command_map f c) = dynamicPrecedence c.
Proof. destruct c; reflexivity. Qed.

Lemma select_map cs :
  select (map (command_map f) cs) = option_map (command_map f) (select cs).
Proof.
  induction cs as [|c r IH]; simpl; [reflexivity|]. rewrite IH.
  destruct (select r) as [d|]; simpl; [|reflexivity].
  rewrite !precedence_map.
  destruct (dynamicPrecedence d <=? dynamicPrecedence c)%Z; reflexivity.
Qed.

Lemma parse_statement_natural ts :
  Forall P ts ->
  parse_statement L2 (map f ts)
  = option_map (command_map f) (parse_statement L1 ts).
Proof.
  intros Hts. unfold parse_statement.
  rewrite (all_parses_natural Hts). apply select_map.
Qed.

End RuleNaturality.

Lemma translates_reads_alike (L1 L2 : Locale) (f : Token -> Token) (t : Token) :
  translates L1 L2 f t -> reads_alike L1 L2 f t.
Proof.
  intros [Hk Hr]. unfold reads_alike, is_text, is_kw, is_string, is_op,
    kind_is_text, reads_as. rewrite Hk.
  destruct (tk_kind t); try rewrite (Hr eq_refl); repeat split; reflexivity.
Qed.

Lemma tag_map (f : Token -> Token) (c : Command) :
  tag (command_map f c) = tag c.
Proof. destruct c as [| | | | | |[]| | | |]; reflexivity. Qed.

Lemma arguments_map (f : Token -> Token) (c : Command) :
  arguments (command_map f c) = map (arg_map f) (arguments c).
Proof. destruct c; reflexivity. Qed.

(** X1: parsing commutes with translation.  When every token of a
    statement is given a spelling that a second locale resolves the way the
    first locale resolves the original (kinds kept), the second locale
    parses the translated statement to the translated tree: same rule, same
    slots, token for token. *)
Theorem parsing_commutes_with_translation
        (L1 L2 : Locale) (f : Token -> Token) (ts : list Token) :
  Forall (translates L1 L2 f) ts ->
  parse_statement L2 (map f ts)
  = option_map (command_map f) (parse_statement L1 ts)
  /\ option_map tag (parse_statement L2 (map f ts))
     = option_map tag (parse_statement L1 ts).
Proof.
  intros H.
  assert (Heq : parse_statement L2 (map f ts)
                = option_map (command_map f) (parse_statement L1 ts)).
  { apply parse_statement_natural.
    eapply Forall_impl; [|exact H]. apply translates_reads_alike. }
  split; [exact Heq|]. rewrite Heq.
  destruct (parse_statement L1 ts); simpl; [|reflexivity].
  now rewrite tag_map.
Qed.

Lemma parsing_commutes_with_translation_witness :
  let nl := mkLocale (lookup [(cps "vraag", ask)])
                     (lookup [(cps "druk", print); (cps "is", is_)]) in
  let f := fun t => if lexeme_eqb (tk_text t) (cps "print")
                    then mkToken Text 0 4 (cps "druk") else t in
  let ts := [mkToken Text 0 5 (cps "print"); mkToken Text 6 11 (cps "hello")] in
  parse_statement nl (map f ts)
  = option_map (command_map f) (parse_statement en ts)
  /\ option_map tag (parse_statement nl (map f ts))
     = option_map tag (parse_statement en ts).
Proof.
  intros nl f ts. apply parsing_commutes_with_translation.
  repeat constructor; simpl; intros _; reflexivity.
Defined.

Lemma recomma_reads_alike (L : Locale) (g : Comma -> Comma) (t : Token) :
  reads_alike L L (recomma g) t.
Proof.
  unfold reads_alike, recomma, is_text, is_kw, is_string, is_op, kind_is_text.
  destruct t as [[| | | | |k] s e w]; simpl; repeat split; reflexivity.
Qed.

(** X2: which comma stands at a separator place never matters.  Putting
    other commas in place of the separators of any statement changes the
    parse in these separator tokens only: same rule, same elements. *)
Theorem parsing_ignores_the_comma_variant
        (L : Locale) (g : Comma -> Comma) (ts : list Token) :
  parse_statement L (map (recomma g) ts)
  = option_map (command_map (recomma g)) (parse_statement L ts)
  /\ option_map (fun c => (tag c, length (list_elements c)))
                (parse_statement L (map (recomma g) ts))
     = option_map (fun c => (tag c, length (list_elements c)))
                  (parse_statement L ts).
Proof.
  assert (Heq : parse_statement L (map (recomma g) ts)
                = option_map (command_map (recomma g)) (parse_statement L ts)).
  { apply parse_statement_natural.
    apply Forall_forall. intros t _. apply recomma_reads_alike. }
  split; [exact Heq|]. rewrite Heq.
  destruct (parse_statement L ts) as [c|]; simpl; [|reflexivity].
  rewrite tag_map. destruct c; simpl; rewrite ?length_map; reflexivity.
Qed.

Lemma shift_reads_alike (L : Locale) (n : nat) (t : Token) :
  reads_alike L L (shift n) t.
Proof. unfold reads_alike. repeat split; reflexivity. Qed.

Lemma parse_statement_shift (L : Locale) (n : nat) (ts : list Token) :
  parse_statement L (map (shift n) ts)
  = option_map (command_map (shift n)) (parse_statement L ts).
Proof.
  apply parse_statement_natural.
  apply Forall_forall. intros t _. apply shift_reads_alike.
Qed.

(** * Lines are lexed and parsed one by one *)

Lemma span_app (p : N -> bool) (l t : list N) :
  span p (l ++ t)
  = match snd (span p l) with
    | [] => (fst (span p l) ++ fst (span p t), snd (span p t))
    | _ :: _ => (fst (span p l), snd (span p l) ++ t)
    end.
Proof.
  induction l as [|c r IH]; simpl.
  - destruct (span p t). reflexivity.
  - destruct (p c); [|reflexivity]. rewrite IH.
    destruct (span p r) as [run rest]. simpl.
    destruct rest; reflexivity.
Qed.

Lemma span_stop (p : N -> bool) (c : N) (t : list N) :
  p c = false -> span p (c :: t) = ([], c :: t).
Proof. intros H. simpl. now rewrite H. Qed.

(** A token never reaches over a line feed. *)
Lemma next_token_before_lf (a b : list N) :
  next_token (a ++ lf :: b)
  = match a with
    | [] => Some (newline, [lf], b)
    | _ :: _ =>
        match next_token a with
        | Some (k, w, rest) => Some (k, w, rest ++ lf :: b)
        | None => None
        end
    end.
Proof.
  destruct a as [|c r]; [reflexivity|].
  change ((c :: r) ++ lf :: b) with (c :: (r ++ lf :: b)).
  unfold next_token.
  destruct (c =? hash)%N.
  { rewrite span_app, (@span_stop commentChar lf b eq_refl).
    destruct (span commentChar r) as [body [|x rest]]; cbn [fst snd app];
      rewrite ?app_nil_r; reflexivity. }
  destruct (c =? lf)%N; [reflexivity|].
  destruct (c =? blank)%N; [reflexivity|].
  destruct (textChar c).
  { rewrite span_app, (@span_stop textChar lf b eq_refl).
    destruct (span textChar r) as [run [|x rest]]; cbn [fst snd app];
      rewrite ?app_nil_r; reflexivity. }
  destruct (is_quote c) eqn:Hq.
  { assert (Hlf : stringChar c lf = false).
    { unfold stringChar. rewrite N.eqb_refl. reflexivity. }
    rewrite span_app, (@span_stop (stringChar c) lf b Hlf).
    destruct (span (stringChar c) r) as [body [|x rest]]; cbn [fst snd app].
    - assert (Hne : (lf =? c)%N = false).
      { destruct (lf =? c)%N eqn:E; [|reflexivity].
        apply N.eqb_eq in E. subst c. discriminate Hq. }
      now rewrite Hne.
    - destruct (x =? c)%N; reflexivity. }
  destruct (comma_of c); reflexivity.
Qed.

Lemma lex_cons_relocate n t r :
  relocate n (lex_cons t r) = lex_cons (shift n t) (relocate n r).
Proof. destruct r; reflexivity. Qed.

(** Lexing from another offset moves the tokens and nothing else. *)
Lemma lex_from_relocate fuel n pos input :
  lex_from fuel (n + pos) input = relocate n (lex_from fuel pos input).
Proof.
  revert pos input. induction fuel as [|m IH]; intros pos input.
  - destruct input; reflexivity.
  - destruct input as [|c r]; [reflexivity|]. cbn [lex_from].
    destruct (next_token (c :: r)) as [[[k w] rest]|]; [|reflexivity].
    rewrite lex_cons_relocate. unfold shift. simpl.
    rewrite <- IH, Nat.add_assoc. reflexivity.
Qed.

Lemma lex_app_cons t r1 r2 :
  lex_app (lex_cons t r1) r2 = lex_cons t (lex_app r1 r2).
Proof. destruct r1 as [ta| |]; try reflexivity. destruct r2; reflexivity. Qed.

Lemma lex_from_lines fuel fuel' pos a b :
  length a <= fuel -> S (length a + length b) <= fuel' ->
  lex_from fuel' pos (a ++ lf :: b)
  = lex_app (lex_from fuel pos a)
            (lex_cons (mkToken newline (pos + length a) (S (pos + length a)) [lf])
                      (lex_from (length b) (S (pos + length a)) b)).
Proof.
  revert fuel' pos a. induction fuel as [|n IH]; intros fuel' pos a Ha Hb.
  - destruct a; [|simpl in Ha; lia]. simpl in *.
    destruct fuel' as [|m]; [lia|]. cbn [lex_from].
    change (next_token (lf :: b)) with (Some (newline, [lf], b)).
    cbn [length]. rewrite Nat.add_0_r, Nat.add_1_r.
    rewrite (@lex_from_enough m (length b) (S pos) b); [|lia|lia].
    destruct (lex_from (length b) (S pos) b); reflexivity.
  - destruct a as [|c r].
    { simpl in *. destruct fuel' as [|m]; [lia|]. cbn [lex_from].
      change (next_token (lf :: b)) with (Some (newline, [lf], b)).
      cbn [length]. rewrite Nat.add_0_r, Nat.add_1_r.
      rewrite (@lex_from_enough m (length b) (S pos) b); [|lia|lia].
      destruct (lex_from (length b) (S pos) b); reflexivity. }
    destruct fuel' as [|m]; [simpl in Hb; lia|].
    pose proof (next_token_before_lf (c :: r) b) as Hn.
    change (lex_from (S m) pos ((c :: r) ++ lf :: b))
      with (match next_token ((c :: r) ++ lf :: b) with
            | None => LexStuck pos
            | Some (k, w, rest) =>
                lex_cons (mkToken k pos (pos + length w) w)
                         (lex_from m (pos + length w) rest)
            end).
    rewrite Hn. cbn [lex_from].
    destruct (next_token (c :: r)) as [[[k w] rest]|] eqn:Hnt; [|reflexivity].
    apply next_token_spec in Hnt. destruct Hnt as (Hin & Hw & _).
    assert (Hlen : length (c :: r) = length w + length rest).
    { rewrite Hin, length_app. reflexivity. }
    assert (Hwpos : 0 < length w) by (destruct w; [congruence | simpl; lia]).
    rewrite lex_app_cons. f_equal.
    rewrite (IH m (pos + length w) rest); [|simpl in *; lia|simpl in *; lia].
    rewrite Hlen. rewrite !Nat.add_assoc. reflexivity.
Qed.

(** X3: a line feed ends every token.  Lexing two pieces joined by a line
    feed gives the tokens of the first piece, the newline token, and the
    tokens of the second piece moved behind it; it stops where the first
    piece stops, or else where the second one does. *)
Theorem lexing_is_line_by_line (a b : list N) :
  lex (a ++ lf :: b)
  = lex_app (lex a)
            (lex_cons (mkToken newline (length a) (S (length a)) [lf])
                      (relocate (S (length a)) (lex b))).
Proof.
  unfold lex. rewrite (@lex_from_lines (length a) _ 0 a b).
  - simpl. f_equal. f_equal.
    rewrite <- (Nat.add_0_r (S (length a))) at 1.
    apply lex_from_relocate.
  - lia.
  - rewrite length_app. simpl. lia.
Qed.

Lemma lines_of_nonempty (ts : list Token) : lines_of ts <> [].
Proof.
  induction ts as [|t r IH]; simpl; [discriminate|].
  destruct (is_newline t); [discriminate|].
  destruct (lines_of r); discriminate.
Qed.

Lemma lines_of_app (xs ys : list Token) (nl : Token) :
  is_newline nl = true ->
  lines_of (xs ++ nl :: ys) = lines_of xs ++ lines_of ys.
Proof.
  intros Hnl. induction xs as [|t r IH]; simpl.
  - now rewrite Hnl.
  - destruct (is_newline t); [now rewrite IH|]. rewrite IH.
    pose proof (lines_of_nonempty r) as Hne.
    destruct (lines_of r) as [|l ls]; [congruence | reflexivity].
Qed.

Lemma lines_of_map (h : Token -> Token) (ts : list Token) :
  (forall t, is_newline (h t) = is_newline t) ->
  lines_of (map h ts) = map (map h) (lines_of ts).
Proof.
  intros Hh. induction ts as [|t r IH]; simpl; [reflexivity|].
  rewrite Hh, IH. destruct (is_newline t); [reflexivity|].
  destruct (lines_of r); reflexivity.
Qed.

Lemma filter_map_commute {A} (h : A -> A) (p : A -> bool) (l : list A) :
  (forall x, p (h x) = p x) ->
  filter p (map h l) = map h (filter p l).
Proof.
  intros Hp. induction l as [|x r IH]; simpl; [reflexivity|].
  rewrite Hp, IH. destruct (p x); reflexivity.
Qed.

Lemma statements_app (xs ys : list Token) (nl : Token) :
  tk_kind nl = newline ->
  statements (xs ++ nl :: ys) = statements xs ++ statements ys.
Proof.
  intros Hk. unfold statements. rewrite filter_app. simpl.
  unfold skipped at 2. rewrite Hk. simpl.
  rewrite lines_of_app, filter_app; [reflexivity|].
  unfold is_newline. now rewrite Hk.
Qed.

Lemma statements_shift (n : nat) (ts : list Token) :
  statements (map (shift n) ts) = map (map (shift n)) (statements ts).
Proof.
  unfold statements.
  rewrite filter_map_commute by reflexivity.
  rewrite lines_of_map by reflexivity.
  generalize (lines_of (filter (fun t => negb (skipped t)) ts)).
  intros ls. induction ls as [|l r IH]; simpl; [reflexivity|].
  rewrite nonempty_map, IH. destruct (nonempty l); reflexivity.
Qed.

(** X4: the lines of a program are parsed one by one.  The commands of two
    pieces joined by a line feed are the commands of the first piece
    followed by the commands of the second, moved behind the first; there
    are none when a piece does not lex. *)
Theorem lines_are_parsed_one_by_one (L : Locale) (a b : list N) :
  parse_program L (a ++ lf :: b)
  = match parse_program L a, parse_program L b with
    | Some pa, Some pb =>
        Some (pa ++ map (option_map (command_map (shift (S (length a))))) pb)
    | _, _ => None
    end.
Proof.
  unfold parse_program. rewrite lexing_is_line_by_line.
  destruct (lex a) as [ta|p|]; simpl; try reflexivity;
    destruct (lex b) as [tb|q|]; simpl; try reflexivity.
  f_equal. rewrite statements_app by reflexivity.
  rewrite map_app, statements_shift, !map_map. f_equal.
  apply map_ext. intros s. apply parse_statement_shift.
Qed.

(** * Trailing spaces and comments *)

Lemma span_whole (p : N -> bool) (l : list N) :
  forallb p l = true -> span p l = (l, []).
Proof.
  intros H. rewrite <- (app_nil_r l) at 1. now apply span_all.
Qed.

Lemma trailer_chars (t : list N) :
  is_trailer t = true -> forallb commentChar t = true.
Proof.
  induction t as [|c r IH]; simpl; [reflexivity|].
  destruct (c =? blank)%N eqn:Hb.
  - intros H. apply N.eqb_eq in Hb. subst c. simpl. auto.
  - intros H. apply andb_true_iff in H. destruct H as [Hh Hr].
    apply N.eqb_eq in Hh. subst c. simpl. exact Hr.
Qed.

Lemma trailer_head (c : N) (r : list N) :
  is_trailer (c :: r) = true -> textChar c = false.
Proof.
  simpl. destruct (c =? blank)%N eqn:Hb.
  - intros _. apply N.eqb_eq in Hb. subst c. reflexivity.
  - intros H. apply andb_true_iff in H. destruct H as [Hh _].
    apply N.eqb_eq in Hh. subst c. reflexivity.
Qed.

(** A trailer alone lexes to skipped tokens. *)
Lemma lex_from_trailer_alone (t : list N) :
  is_trailer t = true ->
  forall fuel pos, length t <= fuel ->
    exists tt, lex_from fuel pos t = LexOk tt /\ filter unskipped tt = [].
Proof.
  induction t as [|c r IH]; intros Ht fuel pos Hlen.
  - exists []. destruct fuel; auto.
  - destruct fuel as [|n]; [simpl in Hlen; lia|]. simpl in Ht.
    destruct (c =? blank)%N eqn:Hb.
    + apply N.eqb_eq in Hb. subst c. cbn [lex_from].
      change (next_token (blank :: r)) with (Some (space, [blank], r)).
      destruct (IH Ht n (pos + length [blank])) as (tt & Hl & Hf);
        [simpl in Hlen; lia|].
      rewrite Hl. simpl. exists (mkToken space pos (pos + 1) [blank] :: tt).
      split; [reflexivity|]. simpl. exact Hf.
    + apply andb_true_iff in Ht. destruct Ht as [Hh Hr].
      apply N.eqb_eq in Hh. subst c. cbn [lex_from].
      assert (Hn : next_token (hash :: r) = Some (Comment, hash :: r, [])).
      { unfold next_token. rewrite N.eqb_refl, (span_whole commentChar r Hr).
        reflexivity. }
      rewrite Hn. destruct n; simpl; eexists; split; reflexivity.
Qed.

(** The first token of a text that a trailer follows: the same token, or
    the comment that ends the text grown by the trailer. *)
Lemma next_token_before_trailer (a t : list N) k w rest :
  is_trailer t = true -> t <> [] ->
  next_token a = Some (k, w, rest) ->
  next_token (a ++ t)
  = match k, rest with
    | Comment, [] => Some (Comment, w ++ t, [])
    | _, _ => Some (k, w, rest ++ t)
    end.
Proof.
  intros Ht Hne. destruct t as [|d t']; [congruence|]. clear Hne.
  pose proof (trailer_chars _ Ht) as Hcc.
  pose proof (trailer_head _ _ Ht) as Hd.
  destruct a as [|c r]; [discriminate|].
  change ((c :: r) ++ d :: t') with (c :: (r ++ d :: t')).
  unfold next_token.
  destruct (c =? hash)%N.
  { rewrite span_app. destruct (span commentChar r) as [body rest'] eqn:Hs.
    cbn [fst snd]. intros H. inversion H; subst.
    destruct rest as [|x rest'']; [|reflexivity].
    rewrite (span_whole commentChar (d :: t') Hcc). reflexivity. }
  destruct (c =? lf)%N.
  { intros H. inversion H; subst. reflexivity. }
  destruct (c =? blank)%N.
  { intros H. inversion H; subst. reflexivity. }
  destruct (textChar c).
  { rewrite span_app. destruct (span textChar r) as [run rest'] eqn:Hs.
    cbn [fst snd]. intros H. inversion H; subst.
    destruct rest as [|x rest'']; [|reflexivity].
    rewrite (@span_stop textChar d t' Hd). cbn [fst snd app].
    rewrite app_nil_r. reflexivity. }
  destruct (is_quote c).
  { rewrite span_app. destruct (span (stringChar c) r) as [body rest'] eqn:Hs.
    cbn [fst snd]. destruct rest' as [|q rest'']; [discriminate|].
    cbn [app]. destruct (q =? c)%N; [|discriminate].
    intros H. inversion H; subst. reflexivity. }
  destruct (comma_of c); [|discriminate].
  intros H. inversion H; subst. reflexivity.
Qed.

Lemma lex_from_before_trailer (t : list N) :
  is_trailer t = true ->
  forall fuel pos a ta,
    lex_from fuel pos a = LexOk ta ->
    exists ts',
      lex_from (fuel + length t) pos (a ++ t) = LexOk ts'
      /\ filter unskipped ts' = filter unskipped ta.
Proof.
  intros Ht. destruct t as [|d t'] eqn:Et.
  { intros fuel pos a ta H. exists ta. rewrite app_nil_r, Nat.add_0_r. auto. }
  rewrite <- Et in *. assert (Hne : t <> []) by (rewrite Et; discriminate).
  clear Et d t'.
  induction fuel as [|n IH]; intros pos a ta H.
  - destruct a; [|discriminate H]. simpl in H. inversion H; subst.
    apply lex_from_trailer_alone; [exact Ht | simpl; lia].
  - destruct a as [|c r].
    { simpl in H. inversion H; subst.
      apply lex_from_trailer_alone; [exact Ht | simpl; lia]. }
    cbn [lex_from] in H.
    destruct (next_token (c :: r)) as [[[k w] rest]|] eqn:Hn;
      [|discriminate H].
    apply lex_cons_ok in H. destruct H as (ta' & Hrec & ->).
    pose proof (@next_token_before_trailer (c :: r) t k w rest Ht Hne Hn) as Hn'.
    change (lex_from (S n + length t) pos ((c :: r) ++ t))
      with (match next_token ((c :: r) ++ t) with
            | None => LexStuck pos
            | Some (k, w, rest) =>
                lex_cons (mkToken k pos (pos + length w) w)
                         (lex_from (n + length t) (pos + length w) rest)
            end).
    rewrite Hn'.
    assert (Hgen : exists ts',
               lex_cons (mkToken k pos (pos + length w) w)
                        (lex_from (n + length t) (pos + length w) (rest ++ t))
               = LexOk ts'
               /\ filter unskipped ts'
                  = filter unskipped (mkToken k pos (pos + length w) w :: ta')).
    { destruct (IH _ _ _ Hrec) as (ts' & Hl & Hf). rewrite Hl.
      eexists. split; [reflexivity|]. simpl. rewrite Hf. reflexivity. }
    destruct k; try exact Hgen. destruct rest as [|x rest']; [|exact Hgen].
    assert (Hta' : ta' = []).
    { destruct n; simpl in Hrec; inversion Hrec; reflexivity. }
    subst ta'. destruct (n + length t); simpl; eexists; split; reflexivity.
Qed.

(** X5: spaces and a comment at the end of a text that lexes add no token
    to any command: the program parses to the same commands with them as
    without.  The comment may hold anything but a line feed. *)
Theorem trailing_spaces_and_comment_are_skipped
        (L : Locale) (a t : list N) (ta : list Token) :
  lex a = LexOk ta ->
  is_trailer t = true ->
  parse_program L (a ++ t) = parse_program L a.
Proof.
  intros Ha Ht. unfold parse_program. rewrite Ha. unfold lex in *.
  destruct (@lex_from_before_trailer t Ht _ _ _ _ Ha) as (ts' & Hl & Hf).
  rewrite length_app, Hl. unfold statements.
  change (fun t0 : Token => negb (skipped t0)) with unskipped.
  rewrite Hf. reflexivity.
Qed.

Lemma trailing_spaces_and_comment_are_skipped_witness :
  parse_program en (cps "print hi" ++ cps "  # say 'hi	there")
  = parse_program en (cps "print hi").
Proof.
  apply (@trailing_spaces_and_comment_are_skipped
           en (cps "print hi") (cps "  # say 'hi	there")
           [mkToken Text 0 5 (cps "print"); mkToken space 5 6 [blank];
            mkToken Text 6 8 (cps "hi")]);
    reflexivity.
Defined.

(** * The size and the tokens of a command *)

Section Sizes.

Variable L : Locale.

Lemma run_length (h : Token -> bool) (l : list Token) :
  run h l = true -> 1 <= length l.
Proof. destruct l; [discriminate | simpl; lia]. Qed.

Lemma access_length (l : ListAccess) :
  wf_access L l = true -> 3 <= length (access_tokens l).
Proof.
  destruct l as [n ats i]. unfold wf_access, access_tokens. simpl. intros H.
  apply andb_true_iff in H. destruct H as [H Hi].
  apply andb_true_iff in H. destruct H as [_ Ha].
  apply run_length in Ha. rewrite length_app.
  destruct i as [rs|t]; simpl in *; [apply run_length in Hi|]; lia.
Qed.

Lemma operand_length (v : Operand) :
  wf_operand L v = true -> 1 <= length (operand_tokens v).
Proof.
  destruct v as [t|l]; simpl; intros H; [lia|].
  apply access_length in H. lia.
Qed.

Lemma value_length (v : Value) :
  wf_value L v = true -> 1 <= length (value_tokens v).
Proof.
  destruct v as [ts|l]; simpl; intros H.
  - now apply run_length in H.
  - apply access_length in H. lia.
Qed.

Lemma args_length (args : list Arg) :
  nonempty args = true -> forallb (wf_arg L) args = true ->
  1 <= length (concat (map arg_tokens args)).
Proof.
  destruct args as [|a r]; [discriminate|]. simpl. intros _ H.
  apply andb_true_iff in H. destruct H as [Ha _]. rewrite length_app.
  destruct a as [t|t|l]; simpl in *; lia.
Qed.

Lemma items_length (more : list (Token * list Token)) :
  nonempty more = true -> forallb (wf_item L) more = true ->
  2 <= length (concat (map item_tokens more)).
Proof.
  destruct more as [|[o ts] r]; [discriminate|]. simpl. intros _ H.
  apply andb_true_iff in H. destruct H as [Ha _]. unfold wf_item in Ha.
  simpl in Ha. apply andb_true_iff in Ha. destruct Ha as [_ Ha].
  apply run_length in Ha. rewrite length_app. lia.
Qed.

Lemma command_length (c : Command) :
  wf_command L c = true -> min_tokens (tag c) <= length (command_tokens c).
Proof.
  destruct c as [n iss v|n iss f m|n iss asks args|kws|kws args|kws v
                 |[kws v|kws v|kws v]|kws o|kws vals tos tg|kws vals frs tg|ts];
    simpl; intros H;
    repeat match goal with
           | H : _ && _ = true |- _ => apply andb_true_iff in H; destruct H
           end;
    repeat match goal with
           | H : run _ _ = true |- _ => apply run_length in H
           | H : wf_value L _ = true |- _ => apply value_length in H
           | H : wf_operand L _ = true |- _ => apply operand_length in H
           end;
    rewrite ?length_app; simpl; try lia.
  - pose proof (items_length m) as Hm.
    match goal with
    | H1 : nonempty m = true, H2 : forallb (wf_item L) m = true |- _ =>
        specialize (Hm H1 H2)
    end. lia.
  - pose proof (args_length args) as Hm.
    match goal with
    | H1 : nonempty args = true, H2 : forallb (wf_arg L) args = true |- _ =>
        specialize (Hm H1 H2)
    end. lia.
  - pose proof (args_length args) as Hm.
    match goal with
    | H1 : nonempty args = true, H2 : forallb (wf_arg L) args = true |- _ =>
        specialize (Hm H1 H2)
    end. lia.
Qed.

Lemma run_in_rules (h : Token -> bool) (l : list Token) :
  (forall t, h t = true -> in_rules t = true) ->
  run h l = true -> forallb in_rules l = true.
Proof.
  intros Hh H. apply run_forallb in H. revert H. apply forallb_imp. exact Hh.
Qed.

Lemma text_in_rules t : is_text L t = true -> in_rules t = true.
Proof.
  unfold is_text, in_rules. intros H. apply andb_true_iff in H.
  destruct H as [-> _]. reflexivity.
Qed.

Lemma kw_in_rules k t : is_kw L k t = true -> in_rules t = true.
Proof.
  unfold is_kw, in_rules. intros H. apply andb_true_iff in H.
  destruct H as [-> _]. reflexivity.
Qed.

Lemma string_in_rules t : is_string t = true -> in_rules t = true.
Proof. unfold in_rules. intros ->. apply orb_true_iff. left. apply orb_true_r. Qed.

Lemma op_in_rules t : is_op t = true -> in_rules t = true.
Proof. unfold in_rules. intros ->. apply orb_true_r. Qed.

Lemma access_in_rules l :
  wf_access L l = true -> forallb in_rules (access_tokens l) = true.
Proof.
  destruct l as [n ats i]. unfold wf_access, access_tokens. simpl. intros H.
  apply andb_true_iff in H. destruct H as [H Hi].
  apply andb_true_iff in H. destruct H as [Hn Ha].
  rewrite (@text_in_rules _ Hn), forallb_app. simpl.
  rewrite (@run_in_rules _ _ (kw_in_rules at_) Ha). simpl.
  destruct i as [rs|t]; simpl in *.
  - apply (@run_in_rules _ _ (kw_in_rules random) Hi).
  - now rewrite (@text_in_rules _ Hi).
Qed.

Lemma args_in_rules args :
  forallb (wf_arg L) args = true ->
  forallb in_rules (concat (map arg_tokens args)) = true.
Proof.
  induction args as [|a r IH]; simpl; [reflexivity|]. intros H.
  apply andb_true_iff in H. destruct H as [Ha Hr].
  rewrite forallb_app, (IH Hr), andb_true_r.
  destruct a as [t|t|l]; simpl in *.
  - now rewrite (@string_in_rules _ Ha).
  - now rewrite (@text_in_rules _ Ha).
  - now apply access_in_rules.
Qed.

Lemma items_in_rules more :
  forallb (wf_item L) more = true ->
  forallb in_rules (concat (map item_tokens more)) = true.
Proof.
  induction more as [|[o ts] r IH]; simpl; [reflexivity|]. intros H.
  apply andb_true_iff in H. destruct H as [Ha Hr]. unfold wf_item in Ha.
  simpl in Ha. apply andb_true_iff in Ha. destruct Ha as [Ho Hts].
  rewrite (@op_in_rules _ Ho), forallb_app, (IH Hr), andb_true_r. simpl.
  apply (@run_in_rules _ _ text_in_rules Hts).
Qed.

Lemma command_in_rules (c : Command) :
  wf_command L c = true -> forallb in_rules (command_tokens c) = true.
Proof.
  destruct c as [n iss v|n iss f m|n iss asks args|kws|kws args|kws v
                 |[kws v|kws v|kws v]|kws o|kws vals tos tg|kws vals frs tg|ts];
    simpl; intros H;
    repeat match goal with
           | H : _ && _ = true |- _ => apply andb_true_iff in H; destruct H
           end;
    repeat match goal with
           | H : is_text L _ = true |- _ => apply text_in_rules in H
           | H : run (is_text L) _ = true |- _ =>
               apply (@run_in_rules _ _ text_in_rules) in H
           | H : run (is_kw L ?k) _ = true |- _ =>
               apply (@run_in_rules _ _ (kw_in_rules k)) in H
           | H : forallb (wf_arg L) _ = true |- _ => apply args_in_rules in H
           | H : forallb (wf_item L) _ = true |- _ => apply items_in_rules in H
           | H : wf_access L _ = true |- _ => apply access_in_rules in H
           end;
    rewrite ?forallb_app; simpl;
    repeat match goal with
           | H : _ = true |- _ => rewrite H; clear H
           end;
    simpl; try reflexivity.
  - destruct v as [ts|l]; simpl in *.
    + apply (@run_in_rules _ _ text_in_rules). assumption.
    + apply access_in_rules. assumption.
  - destruct v as [ts|l]; simpl in *.
    + apply (@run_in_rules _ _ text_in_rules). assumption.
    + apply access_in_rules. assumption.
  - destruct v as [t|l]; simpl in *.
    + rewrite (@text_in_rules t); auto.
    + apply access_in_rules. assumption.
  - destruct v as [t|l]; simpl in *.
    + rewrite (@text_in_rules t); auto.
    + apply access_in_rules. assumption.
  - destruct v as [t|l]; simpl in *.
    + rewrite (@text_in_rules t); auto.
    + apply access_in_rules. assumption.
  - destruct o as [[t|l]|]; simpl in *; auto.
    + rewrite (@text_in_rules t); auto.
    + apply access_in_rules. assumption.
Qed.

End Sizes.

Lemma lines_of_in (ts l : list Token) (t : Token) :
  In l (lines_of ts) -> In t l -> In t ts.
Proof.
  revert l. induction ts as [|x r IH]; simpl; intros l Hl Ht.
  - destruct Hl as [<- | []]. destruct Ht.
  - destruct (is_newline x).
    + destruct Hl as [<- | Hl]; [destruct Ht|]. right. eapply IH; eauto.
    + pose proof (lines_of_nonempty r) as Hne.
      destruct (lines_of r) as [|l0 ls]; [congruence|].
      destruct Hl as [<- | Hl].
      * destruct Ht as [-> | Ht]; [now left|]. right.
        apply (IH l0); [now left | exact Ht].
      * right. apply (IH l); [now right | exact Ht].
Qed.

(** X6: a command is made of the tokens of its statement, all of them and
    in their order, and these are words, strings and separators of the
    lexed text: no space, comment or newline is part of a node. *)
Theorem parsed_command_keeps_every_token
        (L : Locale) (input : list N) (toks : list Token)
        (s : list Token) (c : Command) :
  lex input = LexOk toks ->
  In s (statements toks) ->
  parse_statement L s = Some c ->
  command_tokens c = s
  /\ wf_command L c = true
  /\ forall t, In t (command_tokens c) ->
               In t toks /\ skipped t = false /\ is_newline t = false
               /\ in_rules t = true.
Proof.
  intros _ Hs Hp. apply (@parse_statement_derives L) in Hp.
  destruct Hp as [Hw Hts]. split; [exact Hts|]. split; [exact Hw|].
  intros t Ht. rewrite Hts in Ht. unfold statements in Hs.
  apply filter_In in Hs. destruct Hs as [Hs _].
  pose proof (lines_of_in _ _ _ Hs Ht) as Hin.
  apply filter_In in Hin. destruct Hin as [Hin Hsk].
  apply negb_true_iff in Hsk.
  pose proof (command_in_rules L c Hw) as Hr. rewrite Hts in Hr.
  rewrite forallb_forall in Hr. specialize (Hr t Ht).
  repeat split; auto.
  unfold in_rules, kind_is_text, is_string, is_op, is_newline in *.
  destruct (tk_kind t); auto; discriminate Hr.
Qed.

Lemma parsed_command_keeps_every_token_witness :
  let toks := [mkToken Text 0 5 (cps "print"); mkToken space 5 6 [blank];
               mkToken Text 6 8 (cps "hi")] in
  let c := Print [mkToken Text 0 5 (cps "print")]
                 [ArgText (mkToken Text 6 8 (cps "hi"))] in
  command_tokens c = [mkToken Text 0 5 (cps "print"); mkToken Text 6 8 (cps "hi")]
  /\ wf_command en c = true
  /\ forall t, In t (command_tokens c) ->
               In t toks /\ skipped t = false /\ is_newline t = false
               /\ in_rules t = true.
Proof.
  intros toks c.
  apply (@parsed_command_keeps_every_token en (cps "print hi") toks
           [mkToken Text 0 5 (cps "print"); mkToken Text 6 8 (cps "hi")] c).
  - reflexivity.
  - left. reflexivity.
  - reflexivity.
Defined.

(** X7: every rule has a least size: a command of a statement of [n] tokens
    is built by a rule that takes at most [n] tokens at least, and each
    bound is reached. *)
Theorem every_shape_has_a_least_size :
  (forall (L : Locale) (ts : list Token) (c : Command),
      parse_statement L ts = Some c -> min_tokens (tag c) <= length ts)
  /\ option_map
       (map (option_map (fun c => (tag c, length (command_tokens c)))))
       (parse_program en (cps "a is b
a is b , c
a is ask b
clear
print a
play a
forward a
turn a
color a
sleep
add a to_list b
remove a from b
a"))
     = Some [Some (TAssign, 3); Some (TAssignList, 5); Some (TAsk, 4);
             Some (TClear, 1); Some (TPrint, 2); Some (TPlay, 2);
             Some (TForward, 2); Some (TTurn, 2); Some (TColor, 2);
             Some (TSleep, 1); Some (TAdd, 4); Some (TRemove, 4);
             Some (TErrorInvalid, 1)].
Proof.
  split; [|reflexivity].
  intros L ts c H. apply (@parse_statement_derives L) in H.
  destruct H as [Hw <-]. exact (@command_length L c Hw).
Qed.

Lemma every_shape_has_a_least_size_witness :
  min_tokens (tag (Clear [mkToken Text 0 5 (cps "clear")]))
  <= length [mkToken Text 0 5 (cps "clear")].
Proof.
  apply (proj1 every_shape_has_a_least_size en).
  reflexivity.
Defined.

(** * Short statements and the start of a statement *)

Section Short.

Variable L : Locale.

Lemma parse_statement_none ts :
  (forall c, ~ Derives L c ts) -> parse_statement L ts = None.
Proof.
  intros H. unfold parse_statement.
  destruct (all_parses L ts) as [|c r] eqn:Hall; [reflexivity|].
  exfalso. apply (H c). apply all_parses_spec. rewrite Hall. now left.
Qed.

Lemma run_single (h : Token -> bool) (l rest : list Token) (t : Token) :
  run h l = true -> l ++ rest = [t] -> l = [t] /\ rest = [] /\ h t = true.
Proof.
  intros Hl Heq. destruct (@run_cons h l Hl) as (x & l' & -> & Hx & _).
  simpl in Heq. inversion Heq; subst. destruct l'; [|discriminate].
  simpl in *. subst. auto.
Qed.

(** The derivations of a statement of one token. *)
Lemma one_token_derivations (t : Token) (d : Command) :
  Derives L d [t] ->
  (d = Clear [t] /\ is_kw L clear t = true)
  \/ (d = Sleep [t] None /\ is_kw L sleep t = true)
  \/ (d = ErrorInvalid [t] /\ is_text L t = true).
Proof.
  intros [Hw Hts]. pose proof (@command_length L d Hw) as Hlen.
  rewrite Hts in Hlen. simpl in Hlen.
  destruct d as [n iss v|n iss f m|n iss asks args|kws|kws args|kws v
                 |[kws v|kws v|kws v]|kws o|kws vals tos tg|kws vals frs tg|ts];
    simpl in Hlen; try lia; simpl in Hw, Hts.
  - left. subst kws. split; [reflexivity|]. unfold run in Hw. simpl in Hw.
    now rewrite andb_true_r in Hw.
  - right. left. apply andb_true_iff in Hw. destruct Hw as [Hk Ho].
    destruct (@run_single _ _ _ _ Hk Hts) as (-> & Hnil & Ht).
    split; [|exact Ht]. destruct o as [v|]; [|reflexivity].
    apply operand_length in Ho. rewrite Hnil in Ho. simpl in Ho. lia.
  - right. right. subst ts. split; [reflexivity|]. unfold run in Hw.
    simpl in Hw. now rewrite andb_true_r in Hw.
Qed.

End Short.

(** X8: the statements of one word.  A [clear] keyword alone is a [Clear],
    a [sleep] keyword alone is a [Sleep] without duration, any other word
    that reads as [Text] (a lone [print] or [forward] included) is an
    [ErrorInvalid], and a word that [specialize] turned into [ask], [at] or
    [random], a string or a separator alone is no command at all. *)
Theorem one_token_statements (L : Locale) (t : Token) :
  parse_statement L [t]
  = if is_kw L clear t then Some (Clear [t])
    else if is_kw L sleep t then Some (Sleep [t] None)
         else if is_text L t then Some (ErrorInvalid [t])
              else None.
Proof.
  destruct (is_kw L clear t) eqn:Hc; [|destruct (is_kw L sleep t) eqn:Hs;
                                        [|destruct (is_text L t) eqn:Ht]].
  - assert (Hd : Derives L (Clear [t]) [t]).
    { split; [|reflexivity]. simpl. unfold run. simpl. now rewrite Hc. }
    destruct (@parse_statement_named L _ _ Hd eq_refl) as (r & Hr & Hn & Hdr).
    rewrite Hr. f_equal.
    destruct (@one_token_derivations L t r Hdr) as [[-> _] | [[-> Hk] | [-> _]]].
    + reflexivity.
    + pose proof (@is_kw_functional L _ _ t Hc Hk) as E. discriminate E.
    + discriminate Hn.
  - assert (Hd : Derives L (Sleep [t] None) [t]).
    { split; [|reflexivity]. simpl. unfold run. simpl. now rewrite Hs. }
    destruct (@parse_statement_named L _ _ Hd eq_refl) as (r & Hr & Hn & Hdr).
    rewrite Hr. f_equal.
    destruct (@one_token_derivations L t r Hdr) as [[-> Hk] | [[-> _] | [-> _]]].
    + congruence.
    + reflexivity.
    + discriminate Hn.
  - apply parse_statement_fallback. split.
    + unfold run. simpl. now rewrite Ht.
    + intros c Hd.
      destruct (@one_token_derivations L t c Hd) as [[-> Hk] | [[-> Hk] | [-> _]]];
        [congruence | congruence | reflexivity].
  - apply parse_statement_none. intros c Hd.
    destruct (@one_token_derivations L t c Hd) as [[_ Hk] | [[_ Hk] | [_ Hk]]];
      congruence.
Qed.

Section Turtles.

Variable L : Locale.

Lemma keyword_and_operand (h : Token -> bool) kws (v : Operand) (k x : Token) :
  run h kws = true -> wf_operand L v = true ->
  kws ++ operand_tokens v = [k; x] ->
  kws = [k] /\ v = OperandText x.
Proof.
  intros Hk Hv Heq. destruct (@run_cons h kws Hk) as (y & kws' & -> & _ & _).
  pose proof (@operand_length L v Hv) as Hlen.
  simpl in Heq. inversion Heq as [[Hy Hrest]]. subst y.
  assert (Hl : length kws' + length (operand_tokens v) = 1).
  { rewrite <- length_app, Hrest. reflexivity. }
  destruct kws' as [|z kws'']; [|simpl in Hl; lia]. simpl in Hrest.
  split; [reflexivity|]. destruct v as [t|l]; simpl in *.
  - inversion Hrest. reflexivity.
  - apply access_length in Hv. rewrite Hrest in Hv. simpl in Hv. lia.
Qed.

(** The named derivations of a turtle keyword followed by one token. *)
Lemma two_token_tag (k x : Token) (kwd : Keyword) (d : Command) :
  Derives L d [k; x] -> named d = true -> is_kw L kwd k = true ->
  tag d = head_tag kwd.
Proof.
  intros [Hw Hts] Hn Hk.
  destruct (text_headed d) eqn:Hh.
  - pose proof (@command_length L d Hw) as Hlen. rewrite Hts in Hlen.
    destruct d; try discriminate Hh; simpl in Hlen; lia.
  - destruct (@kw_headed_tag L d Hw Hn Hh) as (k' & t & r & Ht & Hk' & ->).
    rewrite Hts in Ht. inversion Ht; subst.
    f_equal. apply (@is_kw_functional L k' kwd t Hk' Hk).
Qed.

End Turtles.

(** X9: the turtle commands.  A [forward], [turn] or [color] keyword
    followed by one token that reads as [Text] parses to the [Turtle] node
    of that keyword, [Forward], [Turn] or [Color], with that token as its
    one operand. *)
Theorem turtle_commands_take_one_operand (L : Locale) (k x : Token) :
  is_text L x = true ->
  (is_kw L forward k = true ->
   parse_statement L [k; x] = Some (Turtle (Forward [k] (OperandText x))))
  /\ (is_kw L turn k = true ->
      parse_statement L [k; x] = Some (Turtle (Turn [k] (OperandText x))))
  /\ (is_kw L color k = true ->
      parse_statement L [k; x] = Some (Turtle (Color [k] (OperandText x)))).
Proof.
  intros Hx.
  assert (Hgen : forall kwd d0,
             is_kw L kwd k = true ->
             Derives L d0 [k; x] -> named d0 = true ->
             exists r, parse_statement L [k; x] = Some r
                       /\ Derives L r [k; x] /\ tag r = head_tag kwd).
  { intros kwd d0 Hk Hd Hn.
    destruct (@parse_statement_named L _ _ Hd Hn) as (r & Hr & Hrn & Hdr).
    exists r. split; [exact Hr|]. split; [exact Hdr|].
    apply (@two_token_tag L k x kwd r Hdr Hrn Hk). }
  split; [|split]; intros Hk.
  - destruct (Hgen forward (Turtle (Forward [k] (OperandText x))) Hk)
      as (r & Hr & [Hw Hts] & Ht).
    { split; [|reflexivity]. simpl. unfold run. simpl. now rewrite Hk, Hx. }
    { reflexivity. }
    rewrite Hr. f_equal.
    destruct r as [| | | | | |[kws v|kws v|kws v]| | | |]; try discriminate Ht.
    simpl in Hw, Hts. apply andb_true_iff in Hw. destruct Hw as [Hkws Hv].
    destruct (@keyword_and_operand L _ kws v k x Hkws Hv Hts) as [-> ->].
    reflexivity.
  - destruct (Hgen turn (Turtle (Turn [k] (OperandText x))) Hk)
      as (r & Hr & [Hw Hts] & Ht).
    { split; [|reflexivity]. simpl. unfold run. simpl. now rewrite Hk, Hx. }
    { reflexivity. }
    rewrite Hr. f_equal.
    destruct r as [| | | | | |[kws v|kws v|kws v]| | | |]; try discriminate Ht.
    simpl in Hw, Hts. apply andb_true_iff in Hw. destruct Hw as [Hkws Hv].
    destruct (@keyword_and_operand L _ kws v k x Hkws Hv Hts) as [-> ->].
    reflexivity.
  - destruct (Hgen color (Turtle (Color [k] (OperandText x))) Hk)
      as (r & Hr & [Hw Hts] & Ht).
    { split; [|reflexivity]. simpl. unfold run. simpl. now rewrite Hk, Hx. }
    { reflexivity. }
    rewrite Hr. f_equal.
    destruct r as [| | | | | |[kws v|kws v|kws v]| | | |]; try discriminate Ht.
    simpl in Hw, Hts. apply andb_true_iff in Hw. destruct Hw as [Hkws Hv].
    destruct (@keyword_and_operand L _ kws v k x Hkws Hv Hts) as [-> ->].
    reflexivity.
Qed.

Lemma turtle_commands_take_one_operand_witness :
  parse_statement en [mkToken Text 0 7 (cps "forward");
                      mkToken Text 8 10 (cps "10")]
  = Some (Turtle (Forward [mkToken Text 0 7 (cps "forward")]
                          (OperandText (mkToken Text 8 10 (cps "10")))))
  /\ parse_statement en [mkToken Text 0 4 (cps "turn");
                         mkToken Text 5 7 (cps "90")]
     = Some (Turtle (Turn [mkToken Text 0 4 (cps "turn")]
                          (OperandText (mkToken Text 5 7 (cps "90")))))
  /\ parse_statement en [mkToken Text 0 5 (cps "color");
                         mkToken Text 6 9 (cps "red")]
     = Some (Turtle (Color [mkToken Text 0 5 (cps "color")]
                           (OperandText (mkToken Text 6 9 (cps "red"))))).
Proof.
  split; [|split].
  - apply (@turtle_commands_take_one_operand en
             (mkToken Text 0 7 (cps "forward")) (mkToken Text 8 10 (cps "10")));
      reflexivity.
  - apply (@turtle_commands_take_one_operand en
             (mkToken Text 0 4 (cps "turn")) (mkToken Text 5 7 (cps "90")));
      reflexivity.
  - apply (@turtle_commands_take_one_operand en
             (mkToken Text 0 5 (cps "color")) (mkToken Text 6 9 (cps "red")));
      reflexivity.
Defined.

Section Starts.

Variable L : Locale.

Lemma is_text_spec (t : Token) :
  is_text L t = true <->
  tk_kind t = Text /\ specializeKeyword L (tk_text t) = None.
Proof.
  unfold is_text, kind_is_text, reads_as, readings. split.
  - intros H. apply andb_true_iff in H. destruct H as [Hk Hr].
    destruct (tk_kind t); try discriminate Hk. split; [reflexivity|].
    destruct (specializeKeyword L (tk_text t)); [discriminate Hr|reflexivity].
  - intros [-> ->]. destruct (extendKeyword L (tk_text t)); reflexivity.
Qed.

(** Every derivation starts with a token that reads as [Text]. *)
Lemma first_token_is_text (c : Command) :
  wf_command L c = true ->
  exists t rest, command_tokens c = t :: rest /\ is_text L t = true.
Proof.
  destruct c as [n iss v|n iss f m|n iss asks args|kws|kws args|kws v
                 |[kws v|kws v|kws v]|kws o|kws vals tos tg|kws vals frs tg|ts];
    simpl; intros H;
    repeat match goal with
           | H : _ && _ = true |- _ => apply andb_true_iff in H; destruct H
           end;
    try (eexists; eexists; split; [reflexivity | assumption]);
    match goal with
    | Hr : run (is_kw L (Ex ?k)) kws = true |- _ =>
        destruct (@run_cons _ _ Hr) as (x & r & -> & Hx & _);
        exists x; eexists; split;
        [reflexivity | exact (@extended_is_text L k x Hx)]
    | Hr : run (is_text L) ts = true |- _ =>
        destruct (@run_cons _ _ Hr) as (x & r & -> & Hx & _);
        exists x; eexists; split; [reflexivity | exact Hx]
    end.
Qed.

End Starts.

(** X10: every command starts with a word.  The first token of a statement
    that parses is a [Text] token that [specializeKeyword] does not know;
    so a statement that starts with a string, with a separator or with a
    word for [ask], [at] or [random] parses to nothing, whatever follows. *)
Theorem every_command_starts_with_a_word
        (L : Locale) (t : Token) (rest : list Token) (c : Command) :
  parse_statement L (t :: rest) = Some c ->
  tk_kind t = Text /\ specializeKeyword L (tk_text t) = None.
Proof.
  intros H. apply (@parse_statement_derives L) in H. destruct H as [Hw Hts].
  destruct (@first_token_is_text L c Hw) as (x & r & Hx & Ht).
  rewrite Hts in Hx. inversion Hx; subst. now apply is_text_spec.
Qed.

Lemma every_command_starts_with_a_word_witness :
  tk_kind (mkToken Text 0 5 (cps "sleep")) = Text
  /\ specializeKeyword en (tk_text (mkToken Text 0 5 (cps "sleep"))) = None.
Proof.
  apply (@every_command_starts_with_a_word en _ []
           (Sleep [mkToken Text 0 5 (cps "sleep")] None)).
  reflexivity.
Defined.

(** X11: where the grammar is ambiguous.  Two named derivations of one
    statement are built by the same rule, unless one of them takes the
    first word as a name and the other takes it as a keyword; and that
    happens: [print is x] is an [Assign] to the variable [print] as well as
    a [Print] of two words. *)
Theorem named_rules_overlap_only_at_the_first_word :
  (forall (L : Locale) (ts : list Token) (c d : Command),
      Derives L c ts -> Derives L d ts ->
      named c = true -> named d = true ->
      tag c <> tag d ->
      text_headed c <> text_headed d)
  /\ (let p := mkToken Text 0 5 (cps "print") in
      let i := mkToken Text 6 8 (cps "is") in
      let x := mkToken Text 9 10 (cps "x") in
      Derives en (Assign p [i] (ValueTexts [x])) [p; i; x]
      /\ Derives en (Print [p] [ArgText i; ArgText x]) [p; i; x]).
Proof.
  split.
  - intros L ts c d Hc Hd Hnc Hnd Ht Hh. apply Ht.
    apply (@named_tag_unique L c d ts Hc Hd Hnc Hnd Hh).
  - repeat split; reflexivity.
Qed.

Lemma named_rules_overlap_only_at_the_first_word_witness :
  text_headed (Assign (mkToken Text 0 5 (cps "print"))
                      [mkToken Text 6 8 (cps "is")]
                      (ValueTexts [mkToken Text 9 10 (cps "x")]))
  <> text_headed (Print [mkToken Text 0 5 (cps "print")]
                        [ArgText (mkToken Text 6 8 (cps "is"));
                         ArgText (mkToken Text 9 10 (cps "x"))]).
Proof.
  apply (proj1 named_rules_overlap_only_at_the_first_word en
               [mkToken Text 0 5 (cps "print"); mkToken Text 6 8 (cps "is");
                mkToken Text 9 10 (cps "x")]).
  - split; reflexivity.
  - split; reflexivity.
  - reflexivity.
  - reflexivity.
  - discriminate.
Defined.



(** X13: empty lines and lines of spaces and comment hold no command.  The
    commands of a program are those of what follows such a first line,
    moved behind it. *)
Theorem blank_and_comment_lines_hold_no_command
        (L : Locale) (t b : list N) :
  is_trailer t = true ->
  parse_program L (t ++ lf :: b)
  = option_map (map (option_map (command_map (shift (S (length t))))))
               (parse_program L b).
Proof.
  intros Ht. rewrite lines_are_parsed_one_by_one.
  assert (Hnone : parse_program L t = Some []).
  { unfold parse_program, lex.
    destruct (@lex_from_trailer_alone t Ht (length t) 0 (le_n _))
      as (tt & -> & Hf).
    unfold statements.
    change (fun t0 : Token => negb (skipped t0)) with unskipped.
    rewrite Hf. reflexivity. }
  rewrite Hnone. destruct (parse_program L b); reflexivity.
Qed.

Lemma blank_and_comment_lines_hold_no_command_witness :
  parse_program en (cps "  # first say hello" ++ lf :: cps "print hello")
  = option_map (map (option_map (command_map (shift 20))))
               (parse_program en (cps "print hello")).
Proof.
  apply (@blank_and_comment_lines_hold_no_command
           en (cps "  # first say hello") (cps "print hello")).
  reflexivity.
Defined.

(** * Tokens and programs read back *)

Lemma lex_single (k : TokenKind) (w : Lexeme) :
  w <> [] ->
  next_token w = Some (k, w, []) ->
  lex w = LexOk [mkToken k 0 (length w) w].
Proof.
  intros Hne Hn. unfold lex. destruct w as [|c r]; [congruence|].
  cbn [length lex_from]. rewrite Hn. cbn [length Nat.add].
  destruct (length r); reflexivity.
Qed.

(** X14: a token is one token on its own.  The lexeme of every token that
    the lexer returns lexes, alone, to exactly that token (at offset 0):
    what ends a token is in the token, not in what follows it. *)
Theorem every_token_lexes_to_itself (input : list N) (ts : list Token) (t : Token) :
  lex input = LexOk ts -> In t ts ->
  lex (tk_text t) = LexOk [mkToken (tk_kind t) 0 (length (tk_text t)) (tk_text t)].
Proof.
  intros Hlex Hin. apply lex_ok in Hlex. destruct Hlex as (_ & _ & Hshape & _).
  rewrite Forall_forall in Hshape. specialize (Hshape t Hin).
  destruct t as [k s e w]. simpl in *.
  destruct k as [| | | | |c]; simpl in Hshape.
  - destruct Hshape as [Hne Hall]. apply lex_single; [exact Hne|].
    rewrite <- (app_nil_r w) at 1.
    apply next_token_text_run; [exact Hne | exact Hall | exact I].
  - destruct Hshape as (q & body & Hq & -> & Hbody).
    apply lex_single; [discriminate|].
    apply (@next_token_string q body [] Hq Hbody).
  - destruct Hshape as (body & -> & Hbody).
    apply lex_single; [discriminate|].
    unfold next_token. rewrite N.eqb_refl, (span_whole commentChar body Hbody).
    reflexivity.
  - subst w. reflexivity.
  - subst w. reflexivity.
  - subst w. destruct c; reflexivity.
Qed.

Lemma every_token_lexes_to_itself_witness :
  lex (tk_text (mkToken String 6 10 (squote :: cps "hi" ++ [squote])))
  = LexOk [mkToken String 0 4 (squote :: cps "hi" ++ [squote])].
Proof.
  apply (@every_token_lexes_to_itself
           (cps "print 'hi'")
           [mkToken Text 0 5 (cps "print"); mkToken space 5 6 [blank];
            mkToken String 6 10 (squote :: cps "hi" ++ [squote])]
           (mkToken String 6 10 (squote :: cps "hi" ++ [squote]))).
  - reflexivity.
  - right. right. left. reflexivity.
Defined.

Lemma lines_of_concat (ts : list Token) :
  concat (lines_of ts) = filter (fun t => negb (is_newline t)) ts.
Proof.
  induction ts as [|t r IH]; simpl; [reflexivity|].
  destruct (is_newline t); simpl; [exact IH|].
  pose proof (lines_of_nonempty r) as Hne.
  destruct (lines_of r) as [|l ls]; [congruence|].
  simpl in *. now rewrite IH.
Qed.

Lemma concat_filter_nonempty {A} (ls : list (list A)) :
  concat (filter nonempty ls) = concat ls.
Proof.
  induction ls as [|l r IH]; simpl; [reflexivity|].
  destruct l; simpl; [exact IH | now rewrite IH].
Qed.

Lemma filter_filter {A} (p q : A -> bool) (l : list A) :
  filter p (filter q l) = filter (fun x => q x && p x) l.
Proof.
  induction l as [|x r IH]; simpl; [reflexivity|].
  destruct (q x); simpl; [|exact IH]. destruct (p x); now rewrite IH.
Qed.

(** X15: a program reads back as its text.  When every statement of a text
    parses, the tokens of the commands, taken in order, are the tokens of
    the text without the spaces, the comments and the newlines: no token is
    lost, doubled or moved. *)
Theorem program_reads_back (L : Locale) (input : list N) (toks : list Token)
        (cs : list (option Command)) :
  lex input = LexOk toks ->
  parse_program L input = Some cs ->
  ~ In None cs ->
  program_tokens cs
  = filter (fun t => negb (skipped t) && negb (is_newline t)) toks.
Proof.
  intros Hlex Hp Hall. unfold parse_program in Hp. rewrite Hlex in Hp.
  inversion Hp; subst cs. clear Hp.
  assert (Hcat : program_tokens (map (parse_statement L) (statements toks))
                 = concat (statements toks)).
  { unfold program_tokens. rewrite map_map.
    induction (statements toks) as [|s r IH]; simpl in *; [reflexivity|].
    destruct (parse_statement L s) as [c|] eqn:Hs.
    - apply (@parse_statement_derives L) in Hs. destruct Hs as [_ ->].
      f_equal. apply IH. intros Hin. apply Hall. now right.
    - exfalso. apply Hall. now left. }
  rewrite Hcat. unfold statements.
  rewrite concat_filter_nonempty, lines_of_concat, filter_filter.
  reflexivity.
Qed.

Lemma program_reads_back_witness :
  program_tokens
    [Some (Print [mkToken Text 0 5 (cps "print")]
                 [ArgText (mkToken Text 6 8 (cps "hi"))]);
     Some (Clear [mkToken Text 14 19 (cps "clear")])]
  = filter (fun t => negb (skipped t) && negb (is_newline t))
           [mkToken Text 0 5 (cps "print"); mkToken space 5 6 [blank];
            mkToken Text 6 8 (cps "hi"); mkToken space 8 9 [blank];
            mkToken Comment 9 12 (cps "# x"); mkToken newline 12 13 [lf];
            mkToken newline 13 14 [lf]; mkToken Text 14 19 (cps "clear")].
Proof.
  apply (@program_reads_back en (cps "print hi # x

clear")).
  - reflexivity.
  - reflexivity.
  - intros [H | [H | []]]; discriminate H.
Defined.

(** * The shuffle and the line table of the Parsons exercises *)

Module ParsonsFacts.

Import Parsons.

Section ShuffleFacts.

Variable A : Type.

Lemma set_nth_length (i : nat) (v : A) (xs : list A) :
  length (set_nth i v xs) = length xs.
Proof.
  revert i. induction xs as [|x r IH]; intros [|i]; simpl; auto.
Qed.

Lemma set_nth_same (i : nat) (v : A) (xs : list A) :
  i < length xs -> nth_error (set_nth i v xs) i = Some v.
Proof.
  revert i. induction xs as [|x r IH]; intros [|i]; simpl; intros H;
    try lia; auto. apply IH. lia.
Qed.

Lemma set_nth_other (i p : nat) (v : A) (xs : list A) :
  p <> i -> nth_error (set_nth i v xs) p = nth_error xs p.
Proof.
  revert i p. induction xs as [|x r IH]; intros [|i] [|p]; simpl; intros H;
    try reflexivity; try congruence. apply IH. congruence.
Qed.

Lemma swap_length (j i : nat) (xs : list A) :
  length (swap j i xs) = length xs.
Proof.
  unfold swap. destruct (nth_error xs j), (nth_error xs i);
    rewrite ?set_nth_length; reflexivity.
Qed.

(** After the body of the loop the array reads as before through the
    transposition of the two indices. *)
Lemma swap_nth_error (j i p : nat) (xs : list A) :
  j < length xs -> i < length xs ->
  nth_error (swap j i xs) p = nth_error xs (transpose j i p).
Proof.
  intros Hj Hi. unfold swap, transpose.
  destruct (nth_error xs j) as [h|] eqn:Ej;
    [|apply nth_error_None in Ej; lia].
  destruct (nth_error xs i) as [x|] eqn:Ei;
    [|apply nth_error_None in Ei; lia].
  destruct (Nat.eqb_spec p i) as [->|Hpi].
  - rewrite set_nth_same, Ej; [reflexivity | now rewrite set_nth_length].
  - rewrite set_nth_other by exact Hpi.
    destruct (Nat.eqb_spec p j) as [->|Hpj].
    + now rewrite set_nth_same, Ei.
    + now rewrite set_nth_other.
Qed.

Lemma transpose_injective (j i : nat) : Injective (transpose j i).
Proof.
  intros a b. unfold transpose.
  destruct (Nat.eqb_spec a i), (Nat.eqb_spec b i),
    (Nat.eqb_spec a j), (Nat.eqb_spec b j); intros; subst; congruence.
Qed.

Lemma swap_permutation (j i : nat) (xs : list A) :
  j < length xs -> i < length xs -> Permutation xs (swap j i xs).
Proof.
  intros Hj Hi. apply Permutation_nth_error. split.
  - now rewrite swap_length.
  - exists (transpose j i). split; [apply transpose_injective|].
    intros n. now apply swap_nth_error.
Qed.

Variable draw : nat -> nat.
Hypothesis draw_below : forall i, 1 <= i -> draw i < i.

Lemma shuffle_from_permutation (i : nat) (xs : list A) :
  i < length xs \/ i = 0 ->
  Permutation xs (shuffle_from draw i xs)
  /\ length (shuffle_from draw i xs) = length xs.
Proof.
  revert xs. induction i as [|i IH]; intros xs Hi; simpl.
  - split; [apply Permutation_refl | reflexivity].
  - destruct Hi as [Hi|Hi]; [|discriminate Hi].
    assert (Hj : draw (S i) < S i) by (apply draw_below; lia).
    destruct (IH (swap (draw (S i)) (S i) xs)) as [Hp Hl].
    { left. rewrite swap_length. lia. }
    split.
    + eapply Permutation_trans; [|exact Hp].
      apply swap_permutation; lia.
    + rewrite Hl. apply swap_length.
Qed.

End ShuffleFacts.

(** X16: the shuffle permutes.  Whatever is drawn, as long as every draw
    is below its round, the shuffled array holds the same elements as the
    array at the start, each as often, and has the same length. *)
Theorem shuffle_is_a_permutation
        (A : Type) (draw : nat -> nat) (xs : list A) :
  (forall i, 1 <= i -> draw i < i) ->
  Permutation xs (fisherYatesShuffle draw xs)
  /\ length (fisherYatesShuffle draw xs) = length xs.
Proof.
  intros Hd. unfold fisherYatesShuffle.
  apply shuffle_from_permutation; [exact Hd|].
  destruct xs; simpl; [now right | left; lia].
Qed.

Lemma shuffle_is_a_permutation_witness :
  Permutation [1; 2; 3; 4] (fisherYatesShuffle (fun i => i - 1) [1; 2; 3; 4])
  /\ length (fisherYatesShuffle (fun i => i - 1) [1; 2; 3; 4]) = 4.
Proof.
  apply (@shuffle_is_a_permutation nat (fun i => i - 1) [1; 2; 3; 4]).
  intros i Hi. lia.
Defined.

Section Derangement.

Variable A : Type.
Variable draw : nat -> nat.
Hypothesis draw_below : forall i, 1 <= i -> draw i < i.
Variable xs : list A.
Hypothesis xs_distinct : NoDup xs.

Lemma shuffled_at_start : shuffled_so_far xs (length xs - 1) xs.
Proof.
  split; [reflexivity|]. split; [|split].
  - intros p q x _ Hp Hq. left.
    assert (Hlt : q < length xs).
    { apply nth_error_Some. rewrite Hq. discriminate. }
    apply (proj1 (NoDup_nth_error xs) xs_distinct q p Hlt). congruence.
  - intros p x Hp Hx. exfalso.
    assert (Hlt : p < length xs).
    { apply nth_error_Some. rewrite Hx. discriminate. }
    lia.
  - intros H0 H2. lia.
Qed.

Lemma shuffled_step (i : nat) (cur : list A) :
  S i < length xs ->
  shuffled_so_far xs (S i) cur ->
  shuffled_so_far xs i (swap (draw (S i)) (S i) cur).
Proof.
  intros Hi (Hlen & Hlow & Hhigh & _).
  assert (Hj : draw (S i) < S i) by (apply draw_below; lia).
  assert (Hnth : forall p,
             nth_error (swap (draw (S i)) (S i) cur) p
             = nth_error cur (transpose (draw (S i)) (S i) p)).
  { intros p. apply swap_nth_error; lia. }
  split; [now rewrite swap_length|]. split; [|split].
  - intros p q x Hp Hx Hq. rewrite Hnth in Hx. unfold transpose in Hx.
    destruct (Nat.eqb_spec p (S i)) as [->|Hn]; [lia|].
    destruct (Nat.eqb_spec p (draw (S i))) as [->|Hn'].
    + destruct (Hlow (S i) q x (le_n _) Hx Hq); lia.
    + destruct (Hlow p q x (Nat.le_trans _ _ _ Hp (Nat.le_succ_diag_r i)) Hx Hq);
        [now left | right; lia].
  - intros p x Hp Hx Hxs. rewrite Hnth in Hx. unfold transpose in Hx.
    destruct (Nat.eqb_spec p (S i)) as [->|Hn].
    + destruct (Hlow (draw (S i)) (S i) x (Nat.lt_le_incl _ _ Hj) Hx Hxs); lia.
    + destruct (Nat.eqb_spec p (draw (S i))) as [->|Hn']; [lia|].
      apply (Hhigh p x); [lia | exact Hx | exact Hxs].
  - intros -> _ x Hx Hxs. rewrite Hnth in Hx. unfold transpose in Hx.
    assert (Hd : draw 1 = 0) by (assert (draw 1 < 1) by (apply draw_below; lia); lia). rewrite Hd in Hx. simpl in Hx.
    destruct (Hlow 1 0 x (le_n _) Hx Hxs); lia.
Qed.

Lemma shuffled_at_end (i : nat) (cur : list A) :
  i < length xs -> 2 <= length xs ->
  shuffled_so_far xs i cur ->
  forall p x, nth_error (shuffle_from draw i cur) p = Some x ->
              nth_error xs p <> Some x.
Proof.
  revert cur. induction i as [|i IH]; intros cur Hi Hn Hinv p x Hx.
  - simpl in Hx. destruct Hinv as (_ & _ & Hhigh & Hzero).
    destruct p as [|p]; [apply (Hzero eq_refl Hn x Hx)|].
    apply (Hhigh (S p) x); [lia | exact Hx].
  - simpl in Hx. apply (IH (swap (draw (S i)) (S i) cur)); auto; [lia|].
    now apply shuffled_step.
Qed.

End Derangement.

(** X17: the shuffle leaves nothing in place.  The draw of the round of
    [i] is below [i], never [i] itself; so when the array has two or more
    elements, all different, no element is at the end where it was at the
    start: the order at the start is never the order returned. *)
Theorem shuffle_moves_every_element
        (A : Type) (draw : nat -> nat) (xs : list A) (p : nat) (x : A) :
  (forall i, 1 <= i -> draw i < i) ->
  NoDup xs -> 2 <= length xs ->
  nth_error xs p = Some x ->
  nth_error (fisherYatesShuffle draw xs) p <> Some x.
Proof.
  intros Hd Hnd Hn Hx Hs.
  apply (@shuffled_at_end A draw Hd xs (length xs - 1) xs) in Hs; auto.
  - lia.
  - now apply shuffled_at_start.
Qed.

Lemma shuffle_moves_every_element_witness :
  nth_error (fisherYatesShuffle (fun i => i - 1) [10; 20; 30]) 1 <> Some 20.
Proof.
  apply (@shuffle_moves_every_element nat (fun i => i - 1) [10; 20; 30] 1 20).
  - intros i Hi. lia.
  - repeat constructor; simpl; intuition discriminate.
  - simpl. lia.
  - reflexivity.
Defined.

Lemma fill_lookup (index : nat) (rest : list (list N)) (d : Dict) (k : nat) :
  fill index rest d k
  = if (index + 1 <=? k) && (k <? index + 1 + length rest)
    then nth_error rest (k - (index + 1))
    else d k.
Proof.
  revert index d. induction rest as [|e r IH]; intros index d; simpl.
  - destruct (Nat.leb_spec (index + 1) k), (Nat.ltb_spec k (index + 1 + 0));
      simpl; try reflexivity; lia.
  - rewrite IH. unfold dict_set.
    destruct (lt_eq_lt_dec k (index + 1)) as [[Hlt|Heq]|Hgt].
    + assert (E1 : (S index + 1 <=? k) = false) by (apply Nat.leb_gt; lia).
      assert (E2 : (index + 1 <=? k) = false) by (apply Nat.leb_gt; lia).
      assert (E3 : (k =? index + 1) = false) by (apply Nat.eqb_neq; lia).
      rewrite E1, E2, E3. reflexivity.
    + subst k.
      assert (E1 : (S index + 1 <=? index + 1) = false)
        by (apply Nat.leb_gt; lia).
      assert (E2 : (index + 1 <=? index + 1) = true) by (apply Nat.leb_le; lia).
      assert (E4 : (index + 1 <? index + 1 + S (length r)) = true)
        by (apply Nat.ltb_lt; lia).
      rewrite E1, E2, E4, Nat.eqb_refl, Nat.sub_diag. reflexivity.
    + assert (E1 : (S index + 1 <=? k) = true) by (apply Nat.leb_le; lia).
      assert (E2 : (index + 1 <=? k) = true) by (apply Nat.leb_le; lia).
      assert (E3 : (k =? index + 1) = false) by (apply Nat.eqb_neq; lia).
      rewrite E1, E2, E3. simpl andb.
      destruct (Nat.ltb_spec k (index + 1 + S (length r))) as [Hl|Hl];
        match goal with
        | |- context [k <? ?b] => destruct (Nat.ltb_spec k b)
        end; try lia; [|reflexivity].
      replace (k - (index + 1)) with (S (k - (S index + 1))) by lia.
      reflexivity.
Qed.

Lemma split_lines_no_lf_upto (n : nat) :
  forall code cur e,
    length code <= n ->
    ~ In 10%N cur -> In e (split_lines cur code) -> ~ In 10%N e.
Proof.
  induction n as [|n IH]; intros code cur e Hlen Hcur He.
  - destruct code; [|simpl in Hlen; lia]. simpl in He.
    destruct He as [<- | []]. now rewrite <- in_rev.
  - destruct code as [|c r].
    { simpl in He. destruct He as [<- | []]. now rewrite <- in_rev. }
    simpl in Hlen. cbn [split_lines] in He.
    destruct (N.eqb_spec c 10) as [->|Hc].
    + destruct He as [<- | He]; [now rewrite <- in_rev|].
      apply (IH r [] e); [lia | exact (fun H => H) | exact He].
    + assert (Hcur' : ~ In 10%N (c :: cur)).
      { intros [H | H]; [congruence | contradiction]. }
      destruct r as [|d r']; [apply (IH [] (c :: cur) e); simpl; auto; lia|].
      destruct ((c =? 13) && (d =? 10))%N.
      * destruct He as [<- | He]; [now rewrite <- in_rev|].
        apply (IH r' [] e); [simpl in Hlen; lia | exact (fun H => H) | exact He].
      * apply (IH (d :: r') (c :: cur) e); [lia | exact Hcur' | exact He].
Qed.

(** X18: the table of the lines of a code.  The keys of the table are the
    numbers from 1 to the number of lines that hold a visible character,
    and the key [k] holds the [k]-th such line of the code, in the order of
    the code; no value holds a line feed, and none is blank. *)
Theorem code_lines_are_numbered_from_one (code : list N) :
  (forall k,
      parse_code_string_into_dict code k
      = if k =? 0 then None else nth_error (splitted_code code) (k - 1))
  /\ (forall k, parse_code_string_into_dict code k <> None
                <-> 1 <= k <= length (splitted_code code))
  /\ (forall e, In e (splitted_code code) ->
                visible e = true /\ ~ In 10%N e).
Proof.
  assert (Hlook : forall k,
             parse_code_string_into_dict code k
             = if k =? 0 then None else nth_error (splitted_code code) (k - 1)).
  { intros k. unfold parse_code_string_into_dict. rewrite fill_lookup.
    destruct k as [|k']; [reflexivity|].
    change (0 + 1) with 1. change (1 <=? S k') with true.
    change (S k' =? 0) with false. cbn [andb].
    destruct (Nat.ltb_spec (S k') (1 + length (splitted_code code)));
      [reflexivity|].
    unfold empty_dict. symmetry. apply nth_error_None. lia. }
  split; [exact Hlook|]. split.
  - intros k. rewrite Hlook. destruct (Nat.eqb_spec k 0) as [->|Hk].
    + split; [congruence | lia].
    + rewrite nth_error_Some. lia.
  - intros e He. unfold splitted_code in He. apply filter_In in He.
    destruct He as [He Hv]. split; [exact Hv|].
    apply (@split_lines_no_lf_upto (length code) code [] e (le_n _));
      [exact (fun H => H) | exact He].
Qed.

Lemma code_lines_are_numbered_from_one_witness :
  parse_code_string_into_dict (cps "print a" ++ [13; 10; 10; 32; 9; 10]%N
                               ++ cps "print b" ++ [10%N]) 2
  = Some (cps "print b")
  /\ (visible (cps "print a") = true /\ ~ In 10%N (cps "print a")).
Proof.
  destruct (code_lines_are_numbered_from_one
              (cps "print a" ++ [13; 10; 10; 32; 9; 10]%N
               ++ cps "print b" ++ [10%N])) as (Hk & _ & He).
  split.
  - rewrite Hk. reflexivity.
  - apply He. left. reflexivity.
Defined.

End ParsonsFacts.
